(** * Aligned allocation of mimalloc (alloc-aligned.c)

    A shallow embedding of [mimalloc/src/alloc-aligned.c] and the properties
    its specification states about it.

    The file under study orchestrates a base allocator (heap, pages,
    segments) that lives in other translation units.  The base allocator is
    therefore a parameter of the development: a record of operations over an
    abstract allocator state.  Raw memory is a function from addresses to
    bytes, and every call that leaves this file (into the base allocator, the
    C library or the instrumentation hooks) is recorded in a trace, newest
    call first, so that statements such as "without invoking the base
    allocator" or "freed only after the copy" can be stated and proved.

    Machine model: LP64.  [size_t], [uintptr_t] are 64-bit unsigned integers,
    carried by [Z] with the wrap-around written out; [ptrdiff_t] is the
    64-bit two's complement integer.  [NULL] is address 0.

    Assertions.  [mi_assert(alignment > 0)] opens three functions (lines
    97, 234 and 265): a build with [MI_DEBUG > 0] aborts the process there
    when the alignment is 0, any other build compiles the check out.  The
    functions named after their C counterparts embed the code behind that
    assertion, that is, every run that is not aborted; [mi_assert_aborts]
    tells when the process is aborted, and the functions with the suffix
    [_asserted] put the assertion in front ([None] is the abort).  A
    statement about a call that reaches one of these assertions with the
    alignment 0 is made of the [_asserted] functions or carries the
    hypothesis that the assertion does not abort.
    The internal assertions ([mi_assert_internal], [mi_assert_expensive])
    check consequences of the code and properties of the base allocator;
    the ones a property depends on are proved as lemmas or appear as named
    hypotheses on the base allocator.  The [PAGODA_DEBUG] blocks only print
    the pointer they are about to return and are left out. *)

From Stdlib Require Import ZArith List Bool Lia.
Import ListNotations.
Local Open Scope Z_scope.
Local Open Scope bool_scope.

(** ** Machine words *)

Definition modulus : Z := 2 ^ 64.
Definition SIZE_MAX : Z := modulus - 1.
Definition PTRDIFF_MAX : Z := 2 ^ 63 - 1.
Definition NULL : Z := 0.
Definition EOVERFLOW : Z := 75.

(** Sizes of [uintptr_t], [intptr_t] and of a data pointer. *)
Definition sizeof_uintptr_t : Z := 8.
Definition sizeof_intptr_t : Z := 8.
Definition sizeof_voidp : Z := 8.

(** Unsigned 64-bit wrap-around of an arithmetic result. *)
Definition wrap (x : Z) : Z := x mod modulus.

(** Conversion of a [size_t] value to [ptrdiff_t]. *)
Definition to_ptrdiff (x : Z) : Z := if x <? 2 ^ 63 then x else x - modulus.

(** A value that fits a [size_t]. *)
Definition is_size_t (x : Z) : Prop := 0 <= x < modulus.

(** Modelled from the spec: [_mi_is_power_of_two] is an inline helper of
    mimalloc-internal.h, which is not among the sources.  The specification
    speaks of it only as one of the power-of-two bit tricks on unsigned
    integers (design notes); the test taken here is mimalloc's
    [(x & (x - 1)) == 0] on [uintptr_t].  It accepts 0, and the source
    relies on that: lines 21 and 98 test [alignment == 0] next to it. *)
Definition _mi_is_power_of_two (x : Z) : bool :=
  Z.land x (wrap (x - 1)) =? 0.

(** Modelled from the spec: [mi_count_size_overflow] is an inline helper of
    mimalloc-internal.h, which is not among the sources.  Following the
    specification ("overflow-checked [count * elem_size]") it reports whether
    [count * size] exceeds the size representation and stores the product in
    [total].  The message a debug build may print on overflow is not
    traced. *)
Definition mi_count_size_overflow (count size : Z) : bool * Z :=
  (SIZE_MAX <? count * size, wrap (count * size)).

(** ** Build configuration

    The constants and feature macros the file reads from mimalloc-types.h. *)

Record mi_config : Type := {
  MI_DEBUG : Z;
  MI_STAT : Z;
  MI_TRACK_ENABLED : bool;
  MI_PADDING : bool;
  MI_PADDING_SIZE : Z;
  MI_MAX_ALIGN_SIZE : Z;
  MI_SMALL_SIZE_MAX : Z;
  MI_MEDIUM_OBJ_SIZE_MAX : Z;
  MI_ALIGNMENT_MAX : Z
}.

(** ** Memory and the trace of outgoing calls *)

Definition memory : Type := Z -> Z.

(** [fill m p n v]: [m] after [memset(p, v, n)]. *)
Definition fill (m : memory) (p n v : Z) : memory :=
  fun a => if (p <=? a) && (a <? p + n) then v else m a.

(** [copy m dst src n]: [m] after [memcpy(dst, src, n)]. *)
Definition copy (m : memory) (dst src n : Z) : memory :=
  fun a => if (dst <=? a) && (a <? dst + n) then m (src + (a - dst)) else m a.

Inductive event : Type :=
| EvMallocZero (heap size : Z) (zero : bool) (p : Z)
| EvMallocZeroEx (heap size : Z) (zero : bool) (huge_alignment : Z) (p : Z)
| EvMallocSmall (heap size : Z) (p : Z)
| EvPageMalloc (heap page size : Z) (zero : bool) (p : Z)
| EvReallocZero (heap p newsize : Z) (zero : bool) (r : Z)
| EvFree (p : Z)
| EvSetHasAligned (page : Z) (b : bool)
| EvMemzero (p n : Z)
| EvMemset (p v n : Z)
| EvMemcpy (dst src n : Z)
| EvStatIncrease (heap size : Z)
| EvTrackMalloc (p size : Z) (zero : bool)
| EvTrackFreeSize (p size : Z)
| EvTrackResize (p oldsize newsize : Z)
| EvErrorMessage (code : Z).

(** Calls into the base allocator. *)
Definition is_base_call (e : event) : bool :=
  match e with
  | EvMallocZero _ _ _ _ | EvMallocZeroEx _ _ _ _ _ | EvMallocSmall _ _ _
  | EvPageMalloc _ _ _ _ _ | EvReallocZero _ _ _ _ _ | EvFree _
  | EvSetHasAligned _ _ => true
  | _ => false
  end.

(** Calls that obtain or resize memory. *)
Definition is_alloc_call (e : event) : bool :=
  match e with
  | EvMallocZero _ _ _ _ | EvMallocZeroEx _ _ _ _ _ | EvMallocSmall _ _ _
  | EvPageMalloc _ _ _ _ _ | EvReallocZero _ _ _ _ _ => true
  | _ => false
  end.

Definition is_free_call (e : event) : bool :=
  match e with EvFree _ => true | _ => false end.

(** Writes this file performs on raw memory. *)
Definition is_write_call (e : event) : bool :=
  match e with
  | EvMemzero _ _ | EvMemset _ _ _ | EvMemcpy _ _ _ => true
  | _ => false
  end.

Definition base_calls (t : list event) : list event := filter is_base_call t.

(** Any call but the free of a block other than [p]. *)
Definition frees_only (p : Z) (e : event) : bool :=
  match e with EvFree q => q =? p | _ => true end.

(** Diagnostics and instrumentation: neither a call into the base allocator
    nor a write to memory. *)
Definition is_note (e : event) : bool :=
  negb (is_base_call e) && negb (is_write_call e).

(** Neither a free nor a write to memory. *)
Definition is_quiet (e : event) : bool :=
  negb (is_free_call e) && negb (is_write_call e).

(** The calls an allocation may make: never a free, and a write only when
    zero-initialisation was requested. *)
Definition alloc_event (zero : bool) (e : event) : bool :=
  negb (is_free_call e) && (zero || negb (is_write_call e)).

(** ** The base allocator

    Every function and page field the file uses from the rest of mimalloc.
    Pages and heaps are handles ([Z]); the operations that may write memory
    take and return it. *)

Record base_allocator (A : Type) : Type := {
  base_default_heap : A -> Z;
  base_malloc_zero : memory -> A -> Z -> Z -> bool -> Z * memory * A;
  base_malloc_zero_ex : memory -> A -> Z -> Z -> bool -> Z -> Z * memory * A;
  base_malloc_small : memory -> A -> Z -> Z -> Z * memory * A;
  base_get_free_small_page : A -> Z -> Z -> Z;
  base_page_free : A -> Z -> Z;
  base_page_is_zero : A -> Z -> bool;
  base_page_malloc : memory -> A -> Z -> Z -> Z -> bool -> Z * memory * A;
  base_ptr_page : A -> Z -> Z;
  base_page_usable_block_size : A -> Z -> Z;
  base_page_set_has_aligned : A -> Z -> bool -> A;
  base_usable_size : memory -> A -> Z -> Z;
  base_realloc_zero : memory -> A -> Z -> Z -> Z -> bool -> Z * memory * A;
  base_free : memory -> A -> Z -> memory * A
}.

Arguments base_default_heap {A}.
Arguments base_malloc_zero {A}.
Arguments base_malloc_zero_ex {A}.
Arguments base_malloc_small {A}.
Arguments base_get_free_small_page {A}.
Arguments base_page_free {A}.
Arguments base_page_is_zero {A}.
Arguments base_page_malloc {A}.
Arguments base_ptr_page {A}.
Arguments base_page_usable_block_size {A}.
Arguments base_page_set_has_aligned {A}.
Arguments base_usable_size {A}.
Arguments base_realloc_zero {A}.
Arguments base_free {A}.

(** The state the C code runs in. *)
Record world (A : Type) : Type := mkWorld {
  mem : memory;
  alloc : A;
  trace : list event
}.

Arguments mkWorld {A}.
Arguments mem {A}.
Arguments alloc {A}.
Arguments trace {A}.

(** The configuration and the base allocator are found by instance
    resolution, so that the embedded functions take the arguments of their C
    counterparts, behind the state they run in. *)
Existing Class mi_config.
Existing Class base_allocator.

Section AlignedAllocation.

Context {cfg : mi_config} {A : Type} {B : base_allocator A}.

Local Abbreviation world := (world A).

(** *** Outgoing calls *)

Definition log (e : event) (w : world) : world :=
  mkWorld (mem w) (alloc w) (e :: trace w).

Definition base_call (ev : Z -> event)
    (op : memory -> A -> Z * memory * A) (w : world) : Z * world :=
  let '(p, m, a) := op (mem w) (alloc w) in
  (p, mkWorld m a (ev p :: trace w)).

Definition mi_get_default_heap (w : world) : Z :=
  base_default_heap B (alloc w).

Definition _mi_heap_malloc_zero (w : world) (heap size : Z) (zero : bool)
    : Z * world :=
  base_call (EvMallocZero heap size zero)
    (fun m a => base_malloc_zero B m a heap size zero) w.

Definition _mi_heap_malloc_zero_ex (w : world) (heap size : Z) (zero : bool)
    (huge_alignment : Z) : Z * world :=
  base_call (EvMallocZeroEx heap size zero huge_alignment)
    (fun m a => base_malloc_zero_ex B m a heap size zero huge_alignment) w.

Definition mi_heap_malloc_small (w : world) (heap size : Z) : Z * world :=
  base_call (EvMallocSmall heap size)
    (fun m a => base_malloc_small B m a heap size) w.

Definition _mi_page_malloc (w : world) (heap page size : Z) (zero : bool)
    : Z * world :=
  base_call (EvPageMalloc heap page size zero)
    (fun m a => base_page_malloc B m a heap page size zero) w.

Definition _mi_heap_realloc_zero (w : world) (heap p newsize : Z)
    (zero : bool) : Z * world :=
  base_call (EvReallocZero heap p newsize zero)
    (fun m a => base_realloc_zero B m a heap p newsize zero) w.

Definition mi_free (w : world) (p : Z) : world :=
  let '(m, a) := base_free B (mem w) (alloc w) p in
  mkWorld m a (EvFree p :: trace w).

Definition mi_page_set_has_aligned (w : world) (page : Z) (b : bool)
    : world :=
  mkWorld (mem w) (base_page_set_has_aligned B (alloc w) page b)
          (EvSetHasAligned page b :: trace w).

(** Reads of allocator metadata: no effect, not traced. *)
Definition _mi_heap_get_free_small_page (w : world) (heap size : Z) : Z :=
  base_get_free_small_page B (alloc w) heap size.
Definition page_free (w : world) (page : Z) : Z :=
  base_page_free B (alloc w) page.
Definition page_is_zero (w : world) (page : Z) : bool :=
  base_page_is_zero B (alloc w) page.
Definition _mi_ptr_page (w : world) (p : Z) : Z :=
  base_ptr_page B (alloc w) p.
Definition mi_page_usable_block_size (w : world) (page : Z) : Z :=
  base_page_usable_block_size B (alloc w) page.
Definition mi_usable_size (w : world) (p : Z) : Z :=
  base_usable_size B (mem w) (alloc w) p.

(** Writes to raw memory. *)
Definition _mi_memzero (w : world) (p n : Z) : world :=
  mkWorld (fill (mem w) p n 0) (alloc w) (EvMemzero p n :: trace w).
Definition memset (w : world) (p v n : Z) : world :=
  mkWorld (fill (mem w) p n v) (alloc w) (EvMemset p v n :: trace w).
Definition _mi_memcpy_aligned (w : world) (dst src n : Z) : world :=
  mkWorld (copy (mem w) dst src n) (alloc w) (EvMemcpy dst src n :: trace w).

(** Diagnostics and instrumentation, compiled in by the build flags. *)
Definition _mi_error_message (w : world) (code : Z) : world :=
  if 0 <? MI_DEBUG cfg then log (EvErrorMessage code) w else w.
Definition mi_heap_stat_increase (w : world) (heap size : Z) : world :=
  if 1 <? MI_STAT cfg then log (EvStatIncrease heap size) w else w.
Definition mi_track_malloc (w : world) (p size : Z) (zero : bool) : world :=
  if MI_TRACK_ENABLED cfg then log (EvTrackMalloc p size zero) w else w.
Definition mi_track_free_size (w : world) (p size : Z) : world :=
  if MI_TRACK_ENABLED cfg then log (EvTrackFreeSize p size) w else w.
Definition mi_track_resize (w : world) (p oldsize newsize : Z) : world :=
  if MI_TRACK_ENABLED cfg then log (EvTrackResize p oldsize newsize) w else w.

(** *** alloc-aligned.c, lines 17-139: the primitive aligned allocation *)

(** Line 59-60: the distance from [p] to the next address [q] with
    [(q + offset) % alignment == 0]. *)
Definition mi_adjust (p alignment offset : Z) : Z :=
  let align_mask := wrap (alignment - 1) in
  let poffset := Z.land (wrap (p + offset)) align_mask in
  if poffset =? 0 then 0 else wrap (alignment - poffset).

(** Lines 73-77: the number of bytes the huge-alignment path zeroes from
    [aligned_p] on. *)
Definition mi_huge_zsize (w : world) (p aligned_p : Z) : Z :=
  let diff := to_ptrdiff (wrap (aligned_p - p)) in
  let zsize :=
    to_ptrdiff (wrap (mi_page_usable_block_size w (_mi_ptr_page w p)
                      - diff - MI_PADDING_SIZE cfg)) in
  if MI_PADDING cfg then to_ptrdiff (wrap (zsize - MI_MAX_ALIGN_SIZE cfg))
  else zsize.

(** Lines 63-65: a page that holds an interior pointer is marked. *)
Definition mi_mark_aligned (w : world) (p aligned_p : Z) : world :=
  if negb (aligned_p =? p)
  then mi_page_set_has_aligned w (_mi_ptr_page w p) true
  else w.

(** Lines 58-90: align within the block [p] obtained from the base
    allocator. *)
Definition mi_align_within (w : world) (p oversize size alignment offset : Z)
    (zero : bool) : Z * world :=
  let adjust := mi_adjust p alignment offset in
  let aligned_p := wrap (p + adjust) in
  let w1 := mi_mark_aligned w p aligned_p in
  let w2 :=
    if zero && (MI_ALIGNMENT_MAX cfg <? alignment) then
      let zsize := mi_huge_zsize w1 p aligned_p in
      if 0 <? zsize then _mi_memzero w1 aligned_p zsize else w1
    else w1 in
  let w3 :=
    if negb (p =? aligned_p)
    then mi_track_malloc (mi_track_free_size w2 p oversize) aligned_p size zero
    else mi_track_resize w2 aligned_p oversize size in
  (aligned_p, w3).

(** Line 46: the size requested for a block in a dedicated huge page. *)
Definition mi_huge_oversize (size : Z) : Z :=
  if size <=? MI_SMALL_SIZE_MAX cfg
  then wrap (MI_SMALL_SIZE_MAX cfg + 1) else size.

(** Line 27: a regular allocation is guaranteed to fit the alignment. *)
Definition mi_natural_fit (size alignment offset : Z) : bool :=
  let align_mask := wrap (alignment - 1) in
  let padsize := wrap (size + MI_PADDING_SIZE cfg) in
  (offset =? 0) && (alignment <=? padsize)
  && (padsize <=? MI_MEDIUM_OBJ_SIZE_MAX cfg)
  && (Z.land padsize align_mask =? 0).

(** Lines 18-91. *)
Definition mi_heap_malloc_zero_aligned_at_fallback (w : world)
    (heap size alignment offset : Z) (zero : bool) : Z * world :=
  if mi_natural_fit size alignment offset
  then _mi_heap_malloc_zero w heap size zero
  else if MI_ALIGNMENT_MAX cfg <? alignment then
    if negb (offset =? 0) then (NULL, _mi_error_message w EOVERFLOW)
    else
      let oversize := mi_huge_oversize size in
      let '(p, w1) := _mi_heap_malloc_zero_ex w heap oversize false alignment in
      if p =? NULL then (NULL, w1)
      else mi_align_within w1 p oversize size alignment offset zero
  else
    let oversize := wrap (wrap (size + alignment) - 1) in
    let '(p, w1) := _mi_heap_malloc_zero w heap oversize zero in
    if p =? NULL then (NULL, w1)
    else mi_align_within w1 p oversize size alignment offset zero.

(** Lines 122-125: the tests guarding the small-block fast path. *)
Definition mi_probe_hits (w : world) (heap size alignment offset : Z) : bool :=
  let align_mask := wrap (alignment - 1) in
  let padsize := wrap (size + MI_PADDING_SIZE cfg) in
  (padsize <=? MI_SMALL_SIZE_MAX cfg) && (alignment <=? padsize)
  && (let page := _mi_heap_get_free_small_page w heap padsize in
      let is_aligned :=
        Z.land (wrap (page_free w page + offset)) align_mask =? 0 in
      negb (page_free w page =? NULL) && is_aligned).

(** Lines 126-135: allocate the free block the probe found. *)
Definition mi_probe_take (w : world) (heap size : Z) (zero : bool)
    : Z * world :=
  let padsize := wrap (size + MI_PADDING_SIZE cfg) in
  let page := _mi_heap_get_free_small_page w heap padsize in
  let w1 := mi_heap_stat_increase w heap size in
  let '(p, w2) := _mi_page_malloc w1 heap page padsize zero in
  (p, mi_track_malloc w2 p size zero).

(** Lines 98-139: the function behind its assertion of line 97 (see
    [mi_heap_malloc_zero_aligned_at_asserted]). *)
Definition mi_heap_malloc_zero_aligned_at (w : world)
    (heap size alignment offset : Z) (zero : bool) : Z * world :=
  if (alignment =? 0) || negb (_mi_is_power_of_two alignment)
  then (NULL, _mi_error_message w EOVERFLOW)
  else if PTRDIFF_MAX <? size
  then (NULL, _mi_error_message w EOVERFLOW)
  else
    if mi_probe_hits w heap size alignment offset
    then mi_probe_take w heap size zero
    else
      mi_heap_malloc_zero_aligned_at_fallback w heap size alignment offset zero.

(** *** Lines 146-226: the allocation entry points *)

Definition mi_heap_malloc_aligned_at (w : world)
    (heap size alignment offset : Z) : Z * world :=
  mi_heap_malloc_zero_aligned_at w heap size alignment offset false.

(** Lines 150-176; the first branch is the [#if !MI_PADDING] build. *)
Definition mi_heap_malloc_aligned (w : world) (heap size alignment : Z)
    : Z * world :=
  if negb (MI_PADDING cfg) then
    if negb (_mi_is_power_of_two alignment) then (NULL, w)
    else if _mi_is_power_of_two size && (alignment <=? size)
            && (size <=? MI_SMALL_SIZE_MAX cfg)
    then mi_heap_malloc_small w heap size
    else mi_heap_malloc_aligned_at w heap size alignment 0
  else
    if ((alignment =? sizeof_voidp)
        || ((alignment =? MI_MAX_ALIGN_SIZE cfg)
            && (MI_MAX_ALIGN_SIZE cfg / 2 <? size)))
       && (size <=? MI_SMALL_SIZE_MAX cfg)
    then mi_heap_malloc_small w heap size
    else mi_heap_malloc_aligned_at w heap size alignment 0.

Definition mi_heap_zalloc_aligned_at (w : world)
    (heap size alignment offset : Z) : Z * world :=
  mi_heap_malloc_zero_aligned_at w heap size alignment offset true.

Definition mi_heap_zalloc_aligned (w : world) (heap size alignment : Z)
    : Z * world :=
  mi_heap_zalloc_aligned_at w heap size alignment 0.

Definition mi_heap_calloc_aligned_at (w : world)
    (heap count size alignment offset : Z) : Z * world :=
  let '(overflow, total) := mi_count_size_overflow count size in
  if overflow then (NULL, w)
  else mi_heap_zalloc_aligned_at w heap total alignment offset.

Definition mi_heap_calloc_aligned (w : world) (heap count size alignment : Z)
    : Z * world :=
  mi_heap_calloc_aligned_at w heap count size alignment 0.

Definition mi_malloc_aligned_at (w : world) (size alignment offset : Z)
    : Z * world :=
  mi_heap_malloc_aligned_at w (mi_get_default_heap w) size alignment offset.

Definition mi_malloc_aligned (w : world) (size alignment : Z) : Z * world :=
  mi_heap_malloc_aligned w (mi_get_default_heap w) size alignment.

Definition mi_zalloc_aligned_at (w : world) (size alignment offset : Z)
    : Z * world :=
  mi_heap_zalloc_aligned_at w (mi_get_default_heap w) size alignment offset.

Definition mi_zalloc_aligned (w : world) (size alignment : Z) : Z * world :=
  mi_heap_zalloc_aligned w (mi_get_default_heap w) size alignment.

Definition mi_calloc_aligned_at (w : world) (count size alignment offset : Z)
    : Z * world :=
  mi_heap_calloc_aligned_at w (mi_get_default_heap w) count size alignment
    offset.

Definition mi_calloc_aligned (w : world) (count size alignment : Z)
    : Z * world :=
  mi_heap_calloc_aligned w (mi_get_default_heap w) count size alignment.

(** *** Lines 233-321: aligned re-allocation *)

(** Lines 238-239: the block still fits, is aligned and wastes no more than
    half of it. *)
Definition mi_realloc_fits (size p newsize alignment offset : Z) : bool :=
  (newsize <=? size) && (size - size / 2 <=? newsize)
  && (wrap (p + offset) mod alignment =? 0).

(** Lines 243-260: allocate, zero the tail, copy, free. *)
Definition mi_realloc_relocate (w : world)
    (heap p size newsize alignment offset : Z) (zero : bool) : Z * world :=
  let '(newp, w1) := mi_heap_malloc_aligned_at w heap newsize alignment offset in
  if negb (newp =? NULL) then
    let w2 :=
      if zero && (size <? newsize) then
        let page := _mi_ptr_page w1 newp in
        if page_is_zero w1 page then w1
        else
          let start :=
            if sizeof_intptr_t <=? size then size - sizeof_intptr_t else 0 in
          memset w1 (newp + start) 0 (newsize - start)
      else w1 in
    let w3 :=
      _mi_memcpy_aligned w2 newp p (if size <? newsize then size else newsize) in
    (newp, mi_free w3 p)
  else (newp, w1).

(** Lines 235-262: the function behind its assertion of line 234 (see
    [mi_heap_realloc_zero_aligned_at_asserted]). *)
Definition mi_heap_realloc_zero_aligned_at (w : world)
    (heap p newsize alignment offset : Z) (zero : bool) : Z * world :=
  if alignment <=? sizeof_uintptr_t
  then _mi_heap_realloc_zero w heap p newsize zero
  else if p =? NULL
  then mi_heap_malloc_zero_aligned_at w heap newsize alignment offset zero
  else
    let size := mi_usable_size w p in
    if mi_realloc_fits size p newsize alignment offset then (p, w)
    else mi_realloc_relocate w heap p size newsize alignment offset zero.

(** Lines 266-269: the function behind its assertion of line 265 (see
    [mi_heap_realloc_zero_aligned_asserted]). *)
Definition mi_heap_realloc_zero_aligned (w : world)
    (heap p newsize alignment : Z) (zero : bool) : Z * world :=
  if alignment <=? sizeof_uintptr_t
  then _mi_heap_realloc_zero w heap p newsize zero
  else
    let offset := p mod alignment in
    mi_heap_realloc_zero_aligned_at w heap p newsize alignment offset zero.

Definition mi_heap_realloc_aligned_at (w : world)
    (heap p newsize alignment offset : Z) : Z * world :=
  mi_heap_realloc_zero_aligned_at w heap p newsize alignment offset false.

Definition mi_heap_realloc_aligned (w : world) (heap p newsize alignment : Z)
    : Z * world :=
  mi_heap_realloc_zero_aligned w heap p newsize alignment false.

Definition mi_heap_rezalloc_aligned_at (w : world)
    (heap p newsize alignment offset : Z) : Z * world :=
  mi_heap_realloc_zero_aligned_at w heap p newsize alignment offset true.

Definition mi_heap_rezalloc_aligned (w : world) (heap p newsize alignment : Z)
    : Z * world :=
  mi_heap_realloc_zero_aligned w heap p newsize alignment true.

Definition mi_heap_recalloc_aligned_at (w : world)
    (heap p newcount size alignment offset : Z) : Z * world :=
  let '(overflow, total) := mi_count_size_overflow newcount size in
  if overflow then (NULL, w)
  else mi_heap_rezalloc_aligned_at w heap p total alignment offset.

Definition mi_heap_recalloc_aligned (w : world)
    (heap p newcount size alignment : Z) : Z * world :=
  let '(overflow, total) := mi_count_size_overflow newcount size in
  if overflow then (NULL, w)
  else mi_heap_rezalloc_aligned w heap p total alignment.

Definition mi_realloc_aligned_at (w : world) (p newsize alignment offset : Z)
    : Z * world :=
  mi_heap_realloc_aligned_at w (mi_get_default_heap w) p newsize alignment
    offset.

Definition mi_realloc_aligned (w : world) (p newsize alignment : Z)
    : Z * world :=
  mi_heap_realloc_aligned w (mi_get_default_heap w) p newsize alignment.

Definition mi_rezalloc_aligned_at (w : world) (p newsize alignment offset : Z)
    : Z * world :=
  mi_heap_rezalloc_aligned_at w (mi_get_default_heap w) p newsize alignment
    offset.

Definition mi_rezalloc_aligned (w : world) (p newsize alignment : Z)
    : Z * world :=
  mi_heap_rezalloc_aligned w (mi_get_default_heap w) p newsize alignment.

Definition mi_recalloc_aligned_at (w : world)
    (p newcount size alignment offset : Z) : Z * world :=
  mi_heap_recalloc_aligned_at w (mi_get_default_heap w) p newcount size
    alignment offset.

Definition mi_recalloc_aligned (w : world) (p newcount size alignment : Z)
    : Z * world :=
  mi_heap_recalloc_aligned w (mi_get_default_heap w) p newcount size alignment.

(** *** Vocabulary of the properties *)

(** [adds P w w']: between [w] and [w'] only calls satisfying [P] were
    made. *)
Definition adds (P : event -> bool) (w w' : world) : Prop :=
  exists evs, trace w' = evs ++ trace w /\ forallb P evs = true.

(** Nothing happened to memory or to the base allocator between [w] and
    [w'], and the base allocator was not called. *)
Definition untouched (w w' : world) : Prop :=
  mem w' = mem w /\ alloc w' = alloc w
  /\ base_calls (trace w') = base_calls (trace w).

(** The bytes [[p, p + n)] of [m] read as zero. *)
Definition zeroed (m : memory) (p n : Z) : Prop :=
  forall i, 0 <= i < n -> m (p + i) = 0.

(** The C test [((uintptr_t)p + offset) % alignment == 0]. *)
Definition aligned_at (p offset alignment : Z) : Prop :=
  wrap (p + offset) mod alignment = 0.

(** *** What the code assumes of the base allocator *)

(** Line 29: when the natural-fit test passes, the regular allocation
    returns [NULL] or an address that is a multiple of [alignment]. *)
Definition natural_fit_guarantee (w : world) (heap size alignment : Z)
    (zero : bool) : Prop :=
  fst (_mi_heap_malloc_zero w heap size zero) mod alignment = 0.

(** Lines 130-132: [_mi_page_malloc] hands out the head of the free list of
    the page when there is one. *)
Definition page_malloc_guarantee (w : world) (heap size : Z) (zero : bool)
    : Prop :=
  let padsize := wrap (size + MI_PADDING_SIZE cfg) in
  let page := _mi_heap_get_free_small_page w heap padsize in
  page_free w page <> NULL ->
  fst (mi_probe_take w heap size zero) = page_free w page.

(** A zero-initialising [_mi_heap_malloc_zero] returns [NULL] or a block
    inside the address space whose bytes all read zero. *)
Definition malloc_zero_guarantee (w : world) : Prop :=
  forall heap sz p m a,
    base_malloc_zero B (mem w) (alloc w) heap sz true = (p, m, a) ->
    p <> NULL ->
    0 <= p /\ p + sz <= modulus /\ zeroed m p sz.

(** A zero-initialising [_mi_page_malloc] zeroes the block up to its
    padding. *)
Definition page_malloc_zero_guarantee (w : world) : Prop :=
  forall heap page sz p m a,
    base_page_malloc B (mem w) (alloc w) heap page sz true = (p, m, a) ->
    p <> NULL ->
    zeroed m p (sz - MI_PADDING_SIZE cfg).

(** The block of a dedicated huge page is large enough for lines 73-78 to
    zero [size] bytes from the aligned address on. *)
Definition huge_zero_covers (w : world) (heap size alignment : Z) : Prop :=
  forall p w1,
    _mi_heap_malloc_zero_ex w heap (mi_huge_oversize size) false alignment
      = (p, w1) ->
    p <> NULL ->
    let aligned_p := wrap (p + mi_adjust p alignment 0) in
    size <= mi_huge_zsize (mi_mark_aligned w1 p aligned_p) p aligned_p.

(** *** Further vocabulary *)



(** The number of calls in [t] that obtain or resize memory. *)
Definition alloc_calls (t : list event) : nat :=
  length (filter is_alloc_call t).

(** The assertion of line 67, with the block inside the address space: the
    usable size of the block of a dedicated huge page holds the adjustment
    and [size]. *)
Definition huge_block_guarantee (w : world) (heap size alignment : Z) : Prop :=
  forall p w1,
    _mi_heap_malloc_zero_ex w heap (mi_huge_oversize size) false alignment
      = (p, w1) ->
    p <> NULL ->
    let adjust := mi_adjust p alignment 0 in
    let w2 := mi_mark_aligned w1 p (wrap (p + adjust)) in
    0 <= p /\ p + adjust < modulus
    /\ adjust + size <= mi_page_usable_block_size w2 (_mi_ptr_page w2 p)
    /\ mi_page_usable_block_size w2 (_mi_ptr_page w2 p) < 2 ^ 63.

(** *** The entry assertions *)

(** Modelled from the spec: [mi_assert] is a macro of mimalloc-types.h,
    which is not among the sources.  The specification has such conditions
    "asserted in debug builds" (section 7): a build with [MI_DEBUG > 0]
    evaluates the condition and aborts the process when it is false, any
    other build compiles the assertion out.  [mi_assert_aborts cond] tells
    whether the process is aborted at [mi_assert(cond)]. *)
Definition mi_assert_aborts (cond : bool) : bool :=
  (0 <? MI_DEBUG cfg) && negb cond.

(** Lines 94-139 with the assertion of line 97. *)
Definition mi_heap_malloc_zero_aligned_at_asserted (w : world)
    (heap size alignment offset : Z) (zero : bool) : option (Z * world) :=
  if mi_assert_aborts (0 <? alignment) then None
  else Some (mi_heap_malloc_zero_aligned_at w heap size alignment offset zero).

(** Lines 150-176; the assertion of line 97 is met on the way through
    [mi_heap_malloc_aligned_at]. *)
Definition mi_heap_malloc_aligned_asserted (w : world)
    (heap size alignment : Z) : option (Z * world) :=
  if negb (MI_PADDING cfg) then
    if negb (_mi_is_power_of_two alignment) then Some (NULL, w)
    else if _mi_is_power_of_two size && (alignment <=? size)
            && (size <=? MI_SMALL_SIZE_MAX cfg)
    then Some (mi_heap_malloc_small w heap size)
    else mi_heap_malloc_zero_aligned_at_asserted w heap size alignment 0 false
  else
    if ((alignment =? sizeof_voidp)
        || ((alignment =? MI_MAX_ALIGN_SIZE cfg)
            && (MI_MAX_ALIGN_SIZE cfg / 2 <? size)))
       && (size <=? MI_SMALL_SIZE_MAX cfg)
    then Some (mi_heap_malloc_small w heap size)
    else mi_heap_malloc_zero_aligned_at_asserted w heap size alignment 0 false.

(** Lines 233-262 with the assertion of line 234.  The allocation the body
    may call asserts the same condition on the same alignment. *)
Definition mi_heap_realloc_zero_aligned_at_asserted (w : world)
    (heap p newsize alignment offset : Z) (zero : bool)
    : option (Z * world) :=
  if mi_assert_aborts (0 <? alignment) then None
  else Some (mi_heap_realloc_zero_aligned_at w heap p newsize alignment
               offset zero).

(** Lines 264-269 with the assertion of line 265. *)
Definition mi_heap_realloc_zero_aligned_asserted (w : world)
    (heap p newsize alignment : Z) (zero : bool) : option (Z * world) :=
  if mi_assert_aborts (0 <? alignment) then None
  else Some (mi_heap_realloc_zero_aligned w heap p newsize alignment zero).

End AlignedAllocation.

(** ** Example configurations and a small base allocator

    Two builds for a 64-bit target, and a base allocator simple enough to run
    the embedded code on concrete requests. *)

Definition mi_release_config : mi_config := {|
  MI_DEBUG := 0;
  MI_STAT := 0;
  MI_TRACK_ENABLED := false;
  MI_PADDING := false;
  MI_PADDING_SIZE := 0;
  MI_MAX_ALIGN_SIZE := 16;
  MI_SMALL_SIZE_MAX := 1024;
  MI_MEDIUM_OBJ_SIZE_MAX := 131072;
  MI_ALIGNMENT_MAX := 16777216
|}.

Definition mi_debug_config : mi_config := {|
  MI_DEBUG := 2;
  MI_STAT := 2;
  MI_TRACK_ENABLED := false;
  MI_PADDING := true;
  MI_PADDING_SIZE := 8;
  MI_MAX_ALIGN_SIZE := 16;
  MI_SMALL_SIZE_MAX := 1024;
  MI_MEDIUM_OBJ_SIZE_MAX := 131072;
  MI_ALIGNMENT_MAX := 16777216
|}.

(** The bump allocator: [bump_next] is the address of the next block handed
    out (0 when memory is exhausted; a block that would cross the end of the
    address space is refused), [bump_free] the head of the free list of its
    one small page, [bump_usable] the usable size it reports for every
    block. *)
Record bump : Type := mkBump {
  bump_next : Z;
  bump_free : Z;
  bump_usable : Z;
  bump_is_zero : bool
}.

Definition bump_take (m : memory) (a : bump) (size : Z) (zero : bool)
    : Z * memory * bump :=
  if (bump_next a =? NULL) || (modulus <? bump_next a + size)
  then (NULL, m, a)
  else (bump_next a,
        if zero then fill m (bump_next a) size 0 else m,
        mkBump (bump_next a + size) (bump_free a) (bump_usable a)
               (bump_is_zero a)).

Definition bump_page_malloc (m : memory) (a : bump) (size : Z) (zero : bool)
    : Z * memory * bump :=
  if bump_free a =? NULL then bump_take m a size zero
  else (bump_free a,
        if zero then fill m (bump_free a) size 0 else m,
        mkBump (bump_next a) NULL (bump_usable a) (bump_is_zero a)).

Definition bump_allocator : base_allocator bump := {|
  base_default_heap := fun _ => 1;
  base_malloc_zero := fun m a _ size zero => bump_take m a size zero;
  base_malloc_zero_ex := fun m a _ size zero _ => bump_take m a size zero;
  base_malloc_small := fun m a _ size => bump_take m a size false;
  base_get_free_small_page := fun _ _ _ => 7;
  base_page_free := fun a _ => bump_free a;
  base_page_is_zero := fun a _ => bump_is_zero a;
  base_page_malloc := fun m a _ _ size zero => bump_page_malloc m a size zero;
  base_ptr_page := fun _ _ => 7;
  base_page_usable_block_size := fun a _ => bump_usable a;
  base_page_set_has_aligned := fun a _ _ => a;
  base_usable_size := fun _ a _ => bump_usable a;
  base_realloc_zero := fun m a _ p _ _ => (p, m, a);
  base_free := fun m a _ => (m, a)
|}.

(** Memory that has been used before: every byte reads 0xAA. *)
Definition dirty : memory := fun _ => 170.

Definition bump_world (next free usable : Z) : world bump :=
  mkWorld dirty (mkBump next free usable false) [].

(** ** Machine arithmetic *)

Lemma modulus_pos : 0 < modulus.
Proof. reflexivity. Qed.

Lemma wrap_range (x : Z) : 0 <= wrap x < modulus.
Proof. unfold wrap. apply Z.mod_pos_bound. exact modulus_pos. Qed.

Lemma wrap_small (x : Z) : is_size_t x -> wrap x = x.
Proof. intros H. unfold wrap. apply Z.mod_small. exact H. Qed.

(** A power of two below [2^64] divides the modulus, so reducing modulo it
    commutes with wrap-around. *)
Lemma wrap_mod_pow2 (x k : Z) :
  0 <= k <= 64 -> wrap x mod 2 ^ k = x mod 2 ^ k.
Proof.
  intros Hk. unfold wrap, modulus.
  replace 64 with (k + (64 - k)) by lia.
  rewrite Z.pow_add_r by lia.
  rewrite Z.rem_mul_r by (try apply Z.pow_nonzero; try apply Z.pow_pos_nonneg; lia).
  rewrite Z.mul_comm, Z.mod_add by (apply Z.pow_nonzero; lia).
  apply Z.mod_mod. apply Z.pow_nonzero; lia.
Qed.

(** The mask of line 23: [x & (alignment - 1)] is [x % alignment]. *)
Lemma land_align_mask (x k : Z) :
  0 <= k < 64 -> Z.land x (wrap (2 ^ k - 1)) = x mod 2 ^ k.
Proof.
  intros Hk.
  assert (Hlt : 2 ^ k < modulus)
    by (unfold modulus; apply Z.pow_lt_mono_r; lia).
  assert (Hpos : 0 < 2 ^ k) by (apply Z.pow_pos_nonneg; lia).
  rewrite wrap_small by (unfold is_size_t; lia).
  replace (2 ^ k - 1) with (Z.ones k) by (rewrite Z.ones_equiv; lia).
  apply Z.land_ones. lia.
Qed.

(** What [_mi_is_power_of_two] decides on a non-zero [size_t]. *)
Lemma mi_is_power_of_two_spec (x : Z) :
  is_size_t x -> x <> 0 -> _mi_is_power_of_two x = true ->
  exists k, 0 <= k < 64 /\ x = 2 ^ k.
Proof.
  unfold is_size_t, _mi_is_power_of_two. intros Hx Hx0 Hland.
  apply Z.eqb_eq in Hland.
  assert (Hpos : 0 < x) by lia.
  pose proof (Z.log2_spec x Hpos) as [Hlo Hhi].
  pose proof (Z.log2_nonneg x) as Hk.
  exists (Z.log2 x). split.
  - split; [exact Hk|]. apply Z.log2_lt_pow2; [exact Hpos|]. unfold modulus in Hx. lia.
  - destruct (Z.eq_dec x (2 ^ Z.log2 x)) as [E|NE]; [exact E|exfalso].
    rewrite wrap_small in Hland by (unfold is_size_t; lia).
    assert (Hb1 : Z.testbit x (Z.log2 x) = true) by (apply Z.bit_log2; exact Hpos).
    assert (Hl : Z.log2 (x - 1) = Z.log2 x).
    { apply Z.log2_unique; [exact Hk|]. replace (Z.succ (Z.log2 x)) with (Z.log2 x + 1) in * by lia. lia. }
    assert (Hb2 : Z.testbit (x - 1) (Z.log2 x) = true).
    { rewrite <- Hl. apply Z.bit_log2. lia. }
    assert (Hb : Z.testbit (Z.land x (x - 1)) (Z.log2 x) = true)
      by (rewrite Z.land_spec, Hb1, Hb2; reflexivity).
    rewrite Hland, Z.bits_0 in Hb. discriminate.
Qed.

Lemma mi_is_power_of_two_pow2 (k : Z) :
  0 <= k < 64 -> _mi_is_power_of_two (2 ^ k) = true.
Proof.
  intros Hk. unfold _mi_is_power_of_two.
  rewrite land_align_mask by exact Hk.
  rewrite Z.mod_same by (apply Z.pow_nonzero; lia). reflexivity.
Qed.

(** Lines 59-62 and the assertions of lines 61 and 69: the adjustment is
    below the alignment and carves an aligned address. *)
Lemma mi_adjust_bound (p k offset : Z) :
  0 <= k < 64 -> 0 <= mi_adjust p (2 ^ k) offset < 2 ^ k.
Proof.
  intros Hk. unfold mi_adjust.
  assert (Hpos : 0 < 2 ^ k) by (apply Z.pow_pos_nonneg; lia).
  assert (Hlt : 2 ^ k < modulus)
    by (unfold modulus; apply Z.pow_lt_mono_r; lia).
  rewrite land_align_mask by exact Hk.
  pose proof (Z.mod_pos_bound (wrap (p + offset)) (2 ^ k) Hpos) as Hm.
  destruct (Z.eqb_spec (wrap (p + offset) mod 2 ^ k) 0) as [E|NE]; [lia|].
  rewrite wrap_small by (unfold is_size_t; lia). lia.
Qed.

Lemma mi_adjust_aligned (p k offset : Z) :
  0 <= k < 64 ->
  (wrap (p + mi_adjust p (2 ^ k) offset) + offset) mod 2 ^ k = 0.
Proof.
  intros Hk.
  assert (Hpos : 0 < 2 ^ k) by (apply Z.pow_pos_nonneg; lia).
  assert (Hlt : 2 ^ k < modulus)
    by (unfold modulus; apply Z.pow_lt_mono_r; lia).
  rewrite <- Zplus_mod_idemp_l.
  rewrite wrap_mod_pow2 by lia.
  rewrite Zplus_mod_idemp_l.
  unfold mi_adjust. rewrite land_align_mask by exact Hk.
  rewrite wrap_mod_pow2 by lia.
  pose proof (Z.mod_pos_bound (p + offset) (2 ^ k) Hpos) as Hm.
  destruct (Z.eqb_spec ((p + offset) mod 2 ^ k) 0) as [E|NE].
  - rewrite Z.add_0_r. exact E.
  - rewrite wrap_small by (unfold is_size_t; lia).
    replace (p + (2 ^ k - (p + offset) mod 2 ^ k) + offset)
      with ((p + offset) - (p + offset) mod 2 ^ k + 1 * 2 ^ k) by lia.
    rewrite Z.mod_add by lia.
    rewrite Zminus_mod_idemp_r, Z.sub_diag. apply Z.mod_0_l. lia.
Qed.

(** An address aligned after wrap-around is aligned before it. *)
Lemma aligned_wrap_pow2 (x k : Z) :
  0 <= k <= 64 -> (wrap x mod 2 ^ k = 0 <-> x mod 2 ^ k = 0).
Proof. intros Hk. rewrite wrap_mod_pow2 by exact Hk. reflexivity. Qed.

(** ** Properties of the embedded code *)

Section Properties.

Context {cfg : mi_config} {A : Type} {B : base_allocator A}.

Local Abbreviation world := (world A).

Implicit Types (w : world) (heap size alignment offset p : Z) (zero : bool).

(** *** Traces *)

Lemma adds_refl P w : adds P w w.
Proof. exists []. split; reflexivity. Qed.

Lemma adds_trans P w1 w2 w3 : adds P w1 w2 -> adds P w2 w3 -> adds P w1 w3.
Proof.
  intros [e1 [H1 F1]] [e2 [H2 F2]]. exists (e2 ++ e1). split.
  - rewrite H2, H1. apply app_assoc.
  - rewrite forallb_app, F1, F2. reflexivity.
Qed.

Lemma adds_step P w w' e :
  trace w' = e :: trace w -> P e = true -> adds P w w'.
Proof.
  intros H HP. exists [e]. split; [exact H|]. simpl. rewrite HP. reflexivity.
Qed.

Lemma adds_weaken (P Q : event -> bool) w w' :
  (forall e, P e = true -> Q e = true) -> adds P w w' -> adds Q w w'.
Proof.
  intros HPQ [evs [H F]]. exists evs. split; [exact H|].
  rewrite forallb_forall in *. intros e He. apply HPQ, F, He.
Qed.

Lemma adds_length P w w' : adds P w w' -> (length (trace w) <= length (trace w'))%nat.
Proof. intros [evs [H _]]. rewrite H, length_app. lia. Qed.

Lemma base_call_trace ev op w p w' :
  base_call ev op w = (p, w') -> trace w' = ev p :: trace w.
Proof.
  unfold base_call. destruct (op (mem w) (alloc w)) as [[q m] a].
  intros H. inversion H. reflexivity.
Qed.

Lemma base_call_result ev op w p w' :
  base_call ev op w = (p, w') ->
  op (mem w) (alloc w) = (p, mem w', alloc w').
Proof.
  unfold base_call. destruct (op (mem w) (alloc w)) as [[q m] a].
  intros H. inversion H. reflexivity.
Qed.

Lemma notes_have_no_base_call (evs : list event) :
  forallb is_note evs = true -> filter is_base_call evs = [].
Proof.
  induction evs as [|e evs IH]; [reflexivity|].
  simpl. intros F. apply andb_prop in F as [Fe F].
  unfold is_note in Fe. apply andb_prop in Fe as [Fe _].
  apply negb_true_iff in Fe. rewrite Fe. apply IH, F.
Qed.

Lemma note_untouched w w' :
  mem w' = mem w -> alloc w' = alloc w -> adds is_note w w' ->
  untouched w w'.
Proof.
  intros Hm Ha [evs [Ht F]]. unfold untouched.
  split; [exact Hm|]. split; [exact Ha|].
  unfold base_calls.
  rewrite Ht, filter_app, (notes_have_no_base_call evs F). reflexivity.
Qed.

Lemma error_message_frame w code :
  mem (_mi_error_message w code) = mem w
  /\ alloc (_mi_error_message w code) = alloc w
  /\ adds is_note w (_mi_error_message w code).
Proof.
  unfold _mi_error_message. destruct (0 <? MI_DEBUG cfg).
  - repeat split. eapply adds_step; reflexivity.
  - repeat split. apply adds_refl.
Qed.

Lemma error_message_untouched w code :
  untouched w (_mi_error_message w code).
Proof.
  destruct (error_message_frame w code) as [Hm [Ha Ht]].
  apply note_untouched; assumption.
Qed.

Lemma stat_increase_frame w heap size :
  mem (mi_heap_stat_increase w heap size) = mem w
  /\ alloc (mi_heap_stat_increase w heap size) = alloc w
  /\ adds is_note w (mi_heap_stat_increase w heap size).
Proof.
  unfold mi_heap_stat_increase. destruct (1 <? MI_STAT cfg).
  - repeat split. eapply adds_step; reflexivity.
  - repeat split. apply adds_refl.
Qed.

Lemma track_malloc_frame w p size zero :
  mem (mi_track_malloc w p size zero) = mem w
  /\ alloc (mi_track_malloc w p size zero) = alloc w
  /\ adds is_note w (mi_track_malloc w p size zero).
Proof.
  unfold mi_track_malloc. destruct (MI_TRACK_ENABLED cfg).
  - repeat split. eapply adds_step; reflexivity.
  - repeat split. apply adds_refl.
Qed.

Lemma track_free_size_frame w p size :
  mem (mi_track_free_size w p size) = mem w
  /\ alloc (mi_track_free_size w p size) = alloc w
  /\ adds is_note w (mi_track_free_size w p size).
Proof.
  unfold mi_track_free_size. destruct (MI_TRACK_ENABLED cfg).
  - repeat split. eapply adds_step; reflexivity.
  - repeat split. apply adds_refl.
Qed.

Lemma track_resize_frame w p oldsize newsize :
  mem (mi_track_resize w p oldsize newsize) = mem w
  /\ alloc (mi_track_resize w p oldsize newsize) = alloc w
  /\ adds is_note w (mi_track_resize w p oldsize newsize).
Proof.
  unfold mi_track_resize. destruct (MI_TRACK_ENABLED cfg).
  - repeat split. eapply adds_step; reflexivity.
  - repeat split. apply adds_refl.
Qed.

(** *** Alignment of the result *)

(** What a successful probe (lines 122-125) established. *)
Lemma probe_hits_inv w heap size alignment offset :
  mi_probe_hits w heap size alignment offset = true ->
  let padsize := wrap (size + MI_PADDING_SIZE cfg) in
  let page := _mi_heap_get_free_small_page w heap padsize in
  padsize <= MI_SMALL_SIZE_MAX cfg /\ alignment <= padsize
  /\ page_free w page <> NULL
  /\ Z.land (wrap (page_free w page + offset)) (wrap (alignment - 1)) = 0.
Proof.
  unfold mi_probe_hits. intros H.
  apply andb_prop in H as [H H3]. apply andb_prop in H as [H1 H2].
  apply andb_prop in H3 as [H3 H4].
  apply Z.leb_le in H1, H2. apply negb_true_iff, Z.eqb_neq in H3.
  apply Z.eqb_eq in H4. cbv zeta. tauto.
Qed.

(** What a passed natural-fit test (line 27) established. *)
Lemma natural_fit_inv size alignment offset :
  mi_natural_fit size alignment offset = true ->
  let padsize := wrap (size + MI_PADDING_SIZE cfg) in
  offset = 0 /\ alignment <= padsize
  /\ padsize <= MI_MEDIUM_OBJ_SIZE_MAX cfg
  /\ Z.land padsize (wrap (alignment - 1)) = 0.
Proof.
  unfold mi_natural_fit. intros H.
  apply andb_prop in H as [H H4]. apply andb_prop in H as [H H3].
  apply andb_prop in H as [H1 H2].
  apply Z.eqb_eq in H1, H4. apply Z.leb_le in H2, H3. cbv zeta. tauto.
Qed.

(** Line 69: the carved pointer is aligned at [offset]. *)
Lemma align_within_aligned w p oversize size k offset zero :
  0 <= k < 64 ->
  (fst (mi_align_within w p oversize size (2 ^ k) offset zero) + offset)
    mod 2 ^ k = 0.
Proof. intros Hk. unfold mi_align_within. simpl. apply mi_adjust_aligned, Hk. Qed.

Lemma fallback_aligned w heap size k offset zero p w' :
  0 <= k < 64 ->
  (mi_natural_fit size (2 ^ k) offset = true ->
   natural_fit_guarantee w heap size (2 ^ k) zero) ->
  mi_heap_malloc_zero_aligned_at_fallback w heap size (2 ^ k) offset zero
  = (p, w') ->
  p <> NULL ->
  (p + offset) mod 2 ^ k = 0.
Proof.
  intros Hk Hnat Hrun Hp.
  assert (Hcarve : forall w0 q oversize,
            mi_align_within w0 q oversize size (2 ^ k) offset zero = (p, w') ->
            (p + offset) mod 2 ^ k = 0).
  { intros w0 q oversize E.
    pose proof (align_within_aligned w0 q oversize size k offset zero Hk) as Hal.
    rewrite E in Hal. exact Hal. }
  unfold mi_heap_malloc_zero_aligned_at_fallback in Hrun.
  destruct (mi_natural_fit size (2 ^ k) offset) eqn:Efit.
  - specialize (Hnat eq_refl). unfold natural_fit_guarantee in Hnat.
    rewrite Hrun in Hnat. simpl in Hnat.
    apply natural_fit_inv in Efit as [Hoff _]. subst offset.
    rewrite Z.add_0_r. exact Hnat.
  - destruct (MI_ALIGNMENT_MAX cfg <? 2 ^ k).
    + destruct (negb (offset =? 0)); [inversion Hrun; congruence|].
      destruct (_mi_heap_malloc_zero_ex w heap (mi_huge_oversize size) false (2 ^ k))
        as [q w1].
      destruct (q =? NULL); [inversion Hrun; congruence|].
      eapply Hcarve, Hrun.
    + destruct (_mi_heap_malloc_zero w heap
                  (wrap (wrap (size + 2 ^ k) - 1)) zero) as [q w1].
      destruct (q =? NULL); [inversion Hrun; congruence|].
      eapply Hcarve, Hrun.
Qed.

Lemma malloc_zero_aligned_at_aligned w heap size alignment offset zero p w' :
  is_size_t alignment ->
  (mi_natural_fit size alignment offset = true ->
   natural_fit_guarantee w heap size alignment zero) ->
  page_malloc_guarantee w heap size zero ->
  mi_heap_malloc_zero_aligned_at w heap size alignment offset zero = (p, w') ->
  p <> NULL ->
  (p + offset) mod alignment = 0.
Proof.
  intros Hal Hnat Hpage Hrun Hp.
  unfold mi_heap_malloc_zero_aligned_at in Hrun.
  destruct ((alignment =? 0) || negb (_mi_is_power_of_two alignment)) eqn:Ebad;
    [inversion Hrun; congruence|].
  apply orb_false_elim in Ebad as [E0 Epow].
  apply Z.eqb_neq in E0. apply negb_false_iff in Epow.
  destruct (mi_is_power_of_two_spec alignment Hal E0 Epow) as [k [Hk ->]].
  destruct (PTRDIFF_MAX <? size); [inversion Hrun; congruence|].
  destruct (mi_probe_hits w heap size (2 ^ k) offset) eqn:Eprobe.
  - apply probe_hits_inv in Eprobe as [_ [_ [Hfree Hmask]]].
    specialize (Hpage Hfree). rewrite Hrun in Hpage. simpl in Hpage.
    rewrite Hpage. rewrite land_align_mask in Hmask by exact Hk.
    rewrite wrap_mod_pow2 in Hmask by lia. exact Hmask.
  - eapply fallback_aligned; eassumption.
Qed.


(** *** The calls an aligned allocation makes *)

Lemma note_alloc_event zero e : is_note e = true -> alloc_event zero e = true.
Proof. destruct e, zero; simpl; intros H; try reflexivity; discriminate. Qed.

Lemma base_call_adds (P : event -> bool) ev op w p w' :
  base_call ev op w = (p, w') -> P (ev p) = true -> adds P w w'.
Proof.
  intros H HP. eapply adds_step; [|exact HP]. eapply base_call_trace, H.
Qed.

Lemma mark_aligned_frame w p aligned_p zero :
  mem (mi_mark_aligned w p aligned_p) = mem w
  /\ adds (alloc_event zero) w (mi_mark_aligned w p aligned_p).
Proof.
  unfold mi_mark_aligned. destruct (negb (aligned_p =? p)).
  - split; [reflexivity|]. eapply adds_step; [reflexivity|].
    destruct zero; reflexivity.
  - split; [reflexivity|apply adds_refl].
Qed.

Lemma align_within_adds w p oversize size alignment offset zero :
  adds (alloc_event zero) w
    (snd (mi_align_within w p oversize size alignment offset zero)).
Proof.
  unfold mi_align_within. cbv zeta. simpl snd.
  set (aligned_p := wrap (p + mi_adjust p alignment offset)).
  set (w1 := mi_mark_aligned w p aligned_p).
  assert (H1 : adds (alloc_event zero) w w1)
    by apply (mark_aligned_frame w p aligned_p zero).
  set (w2 := if zero && (MI_ALIGNMENT_MAX cfg <? alignment)
             then if 0 <? mi_huge_zsize w1 p aligned_p
                  then _mi_memzero w1 aligned_p (mi_huge_zsize w1 p aligned_p)
                  else w1
             else w1).
  assert (H2 : adds (alloc_event zero) w1 w2).
  { unfold w2. destruct zero; simpl; [|apply adds_refl].
    destruct (MI_ALIGNMENT_MAX cfg <? alignment); [|apply adds_refl].
    destruct (0 <? mi_huge_zsize w1 p aligned_p); [|apply adds_refl].
    eapply adds_step; reflexivity. }
  apply (adds_trans _ _ w1); [exact H1|].
  apply (adds_trans _ _ w2); [exact H2|].
  apply (adds_weaken is_note); [apply note_alloc_event|].
  destruct (negb (p =? aligned_p)).
  - eapply adds_trans; [apply track_free_size_frame|apply track_malloc_frame].
  - apply track_resize_frame.
Qed.

Lemma probe_take_adds w heap size zero :
  adds (alloc_event zero) w (snd (mi_probe_take w heap size zero)).
Proof.
  unfold mi_probe_take. cbv zeta.
  destruct (_mi_page_malloc (mi_heap_stat_increase w heap size) heap
              (_mi_heap_get_free_small_page w heap (wrap (size + MI_PADDING_SIZE cfg)))
              (wrap (size + MI_PADDING_SIZE cfg)) zero) as [p w2] eqn:E.
  simpl snd.
  apply (adds_trans _ _ (mi_heap_stat_increase w heap size)).
  { apply (adds_weaken is_note); [apply note_alloc_event|apply stat_increase_frame]. }
  apply (adds_trans _ _ w2).
  { eapply base_call_adds; [exact E|]. destruct zero; reflexivity. }
  apply (adds_weaken is_note); [apply note_alloc_event|apply track_malloc_frame].
Qed.

Lemma fallback_adds w heap size alignment offset zero :
  adds (alloc_event zero) w
    (snd (mi_heap_malloc_zero_aligned_at_fallback w heap size alignment offset zero)).
Proof.
  unfold mi_heap_malloc_zero_aligned_at_fallback.
  destruct (mi_natural_fit size alignment offset).
  - destruct (_mi_heap_malloc_zero w heap size zero) as [p w1] eqn:E.
    eapply base_call_adds; [exact E|]. destruct zero; reflexivity.
  - destruct (MI_ALIGNMENT_MAX cfg <? alignment).
    + destruct (negb (offset =? 0)).
      { apply (adds_weaken is_note); [apply note_alloc_event|apply error_message_frame]. }
      destruct (_mi_heap_malloc_zero_ex w heap (mi_huge_oversize size) false alignment)
        as [p w1] eqn:E.
      assert (H1 : adds (alloc_event zero) w w1)
        by (eapply base_call_adds; [exact E|]; destruct zero; reflexivity).
      destruct (p =? NULL); [exact H1|].
      eapply adds_trans; [exact H1|apply align_within_adds].
    + destruct (_mi_heap_malloc_zero w heap (wrap (wrap (size + alignment) - 1)) zero)
        as [p w1] eqn:E.
      assert (H1 : adds (alloc_event zero) w w1)
        by (eapply base_call_adds; [exact E|]; destruct zero; reflexivity).
      destruct (p =? NULL); [exact H1|].
      eapply adds_trans; [exact H1|apply align_within_adds].
Qed.

(** An aligned allocation never frees, and writes to memory only when asked
    to zero-initialise. *)
Lemma malloc_zero_aligned_at_adds w heap size alignment offset zero :
  adds (alloc_event zero) w
    (snd (mi_heap_malloc_zero_aligned_at w heap size alignment offset zero)).
Proof.
  unfold mi_heap_malloc_zero_aligned_at.
  destruct ((alignment =? 0) || negb (_mi_is_power_of_two alignment)).
  { apply (adds_weaken is_note); [apply note_alloc_event|apply error_message_frame]. }
  destruct (PTRDIFF_MAX <? size).
  { apply (adds_weaken is_note); [apply note_alloc_event|apply error_message_frame]. }
  destruct (mi_probe_hits w heap size alignment offset).
  - apply probe_take_adds.
  - apply fallback_adds.
Qed.

Lemma malloc_aligned_at_quiet w heap size alignment offset :
  adds is_quiet w (snd (mi_heap_malloc_aligned_at w heap size alignment offset)).
Proof.
  apply (adds_weaken (alloc_event false)).
  - intros e H. exact H.
  - apply malloc_zero_aligned_at_adds.
Qed.

(** *** Aligned re-allocation *)

(** The test of lines 238-239.  The C expression [size - size / 2] is the
    half of [size] rounded up, so [newsize >= size - size / 2] says that
    [newsize] is at least the exact half of [size]. *)
Lemma realloc_fits_iff size p newsize alignment offset :
  mi_realloc_fits size p newsize alignment offset = true
  <-> (newsize <= size /\ size <= 2 * newsize
       /\ aligned_at p offset alignment).
Proof.
  unfold mi_realloc_fits, aligned_at.
  rewrite !andb_true_iff, Z.eqb_eq, !Z.leb_le.
  pose proof (Z.div_mod size 2 ltac:(lia)) as Hd.
  pose proof (Z.mod_pos_bound size 2 ltac:(lia)) as Hm.
  split; intros [[H1 H2] H3] || intros [H1 [H2 H3]]; repeat split; try assumption; lia.
Qed.

Lemma memcpy_copies w dst src n i :
  0 <= i < n -> mem (_mi_memcpy_aligned w dst src n) (dst + i) = mem w (src + i).
Proof.
  intros Hi. simpl. unfold copy.
  destruct (Z.leb_spec dst (dst + i)); [|lia].
  destruct (Z.ltb_spec (dst + i) (dst + n)); [|lia].
  simpl. f_equal. lia.
Qed.

Lemma copy_outside m dst src n a :
  a < dst \/ dst + n <= a -> copy m dst src n a = m a.
Proof.
  intros Ha. unfold copy.
  destruct (Z.leb_spec dst a); [|reflexivity].
  destruct (Z.ltb_spec a (dst + n)); [lia|reflexivity].
Qed.

Lemma fill_outside m p n v a :
  a < p \/ p + n <= a -> fill m p n v a = m a.
Proof.
  intros Ha. unfold fill.
  destruct (Z.leb_spec p a); [|reflexivity].
  destruct (Z.ltb_spec a (p + n)); [lia|reflexivity].
Qed.

Lemma fill_inside m p n v a :
  p <= a < p + n -> fill m p n v a = v.
Proof.
  intros Ha. unfold fill.
  destruct (Z.leb_spec p a); [|lia].
  destruct (Z.ltb_spec a (p + n)); [reflexivity|lia].
Qed.

(** Lines 245-256: the world after the optional zeroing of the tail. *)
Lemma realloc_tail_frame w1 newp size newsize zero :
  let w2 :=
    if zero && (size <? newsize) then
      if page_is_zero w1 (_mi_ptr_page w1 newp) then w1
      else memset w1
             (newp + (if sizeof_intptr_t <=? size then size - sizeof_intptr_t else 0))
             0
             (newsize - (if sizeof_intptr_t <=? size then size - sizeof_intptr_t else 0))
    else w1 in
  adds (fun e => negb (is_free_call e)) w1 w2
  /\ (forall a, a < newp \/ newp + newsize <= a -> mem w2 a = mem w1 a).
Proof.
  cbv zeta.
  destruct (zero && (size <? newsize)); [|split; [apply adds_refl|reflexivity]].
  destruct (page_is_zero w1 (_mi_ptr_page w1 newp));
    [split; [apply adds_refl|reflexivity]|].
  split.
  - eapply adds_step; reflexivity.
  - intros a Ha. simpl. apply fill_outside.
    unfold sizeof_intptr_t.
    destruct (Z.leb_spec 8 size); lia.
Qed.

(** Lines 243-260, step by step. *)
Lemma realloc_relocate_spec w heap p size newsize alignment offset zero newp w1 :
  mi_heap_malloc_aligned_at w heap newsize alignment offset = (newp, w1) ->
  (newp = NULL ->
   mi_realloc_relocate w heap p size newsize alignment offset zero = (NULL, w1))
  /\ (newp <> NULL ->
      exists w2,
        mi_realloc_relocate w heap p size newsize alignment offset zero
        = (newp, mi_free (_mi_memcpy_aligned w2 newp p (Z.min size newsize)) p)
        /\ adds (fun e => negb (is_free_call e)) w1 w2
        /\ (forall a, a < newp \/ newp + newsize <= a -> mem w2 a = mem w1 a)).
Proof.
  intros Hal. unfold mi_realloc_relocate. rewrite Hal. split.
  - intros ->. reflexivity.
  - intros Hnn. apply Z.eqb_neq in Hnn. rewrite Hnn. simpl negb. cbv iota.
    replace (if size <? newsize then size else newsize) with (Z.min size newsize)
      by (destruct (Z.ltb_spec size newsize); lia).
    eexists. split; [reflexivity|].
    apply realloc_tail_frame.
Qed.

Lemma mi_free_trace w p : trace (mi_free w p) = EvFree p :: trace w.
Proof.
  unfold mi_free. destruct (base_free B (mem w) (alloc w) p). reflexivity.
Qed.

(** C3.  For an alignment above [sizeof(uintptr_t)] and a non-null pointer,
    the reallocator returns the block as it is, in a state in which nothing
    at all has happened (no allocation, no copy, no free), exactly when the
    three tests pass: [newsize <= size], [newsize] is at least half of
    [size] (stated without division: [size <= 2 * newsize]), and the
    pointer is aligned at [offset].  When one of them fails the block is
    relocated: the pointer returned is the one a new aligned allocation of
    [newsize] bytes with the same alignment and offset returns; when that
    allocation fails nothing else happens; when it succeeds the call ends
    with the copy of [min size newsize] bytes from the old block into the
    new one and the free of the old block, and nothing was freed before. *)
Theorem realloc_reuses_block_iff :
  forall w heap p newsize alignment offset zero,
    sizeof_uintptr_t < alignment ->
    p <> NULL ->
    let size := mi_usable_size w p in
    let fits :=
      newsize <= size /\ size <= 2 * newsize /\ aligned_at p offset alignment in
    let r :=
      mi_heap_realloc_zero_aligned_at w heap p newsize alignment offset zero in
    let a := mi_heap_malloc_aligned_at w heap newsize alignment offset in
    (r = (p, w) <-> fits)
    /\ (~ fits ->
        fst r = fst a
        /\ (fst a = NULL -> r = a)
        /\ (fst a <> NULL ->
            exists w2,
              adds (fun e => negb (is_free_call e)) (snd a) w2
              /\ trace (snd r)
                 = EvFree p :: EvMemcpy (fst a) p (Z.min size newsize)
                   :: trace w2)).
Proof.
  intros w heap p newsize alignment offset zero Hal Hp size fits r a.
  unfold r, mi_heap_realloc_zero_aligned_at.
  apply Z.leb_gt in Hal. rewrite Hal.
  apply Z.eqb_neq in Hp. rewrite Hp. fold size.
  pose proof (realloc_fits_iff size p newsize alignment offset) as Hfits.
  fold fits in Hfits.
  pose proof (malloc_aligned_at_quiet w heap newsize alignment offset) as Hq.
  fold a in Hq.
  assert (Ha : mi_heap_malloc_aligned_at w heap newsize alignment offset
               = (fst a, snd a)) by apply surjective_pairing.
  destruct (realloc_relocate_spec w heap p size newsize alignment offset zero
              (fst a) (snd a) Ha) as [Hfail Hok].
  destruct (mi_realloc_fits size p newsize alignment offset) eqn:E.
  - split; [|intros Hn; exfalso; apply Hn, Hfits; reflexivity].
    split; [intros _; apply Hfits; reflexivity|reflexivity].
  - assert (Hnf : ~ fits) by (intros Hf; apply Hfits in Hf; discriminate).
    split.
    + split; [|intros Hf; contradiction].
      intros Hrun. exfalso.
      destruct (Z.eq_dec (fst a) NULL) as [En|En].
      * rewrite (Hfail En) in Hrun. inversion Hrun.
        apply Z.eqb_neq in Hp. congruence.
      * destruct (Hok En) as [w2 [Hrel [Hadd _]]].
        rewrite Hrel in Hrun. inversion Hrun as [[Hptr Hw]].
        apply (f_equal (fun x => length (trace x))) in Hw.
        rewrite mi_free_trace in Hw. simpl in Hw.
        apply adds_length in Hq, Hadd. lia.
    + intros _. split.
      { destruct (Z.eq_dec (fst a) NULL) as [En|En].
        - rewrite (Hfail En). symmetry. exact En.
        - destruct (Hok En) as [w2 [Hrel _]]. rewrite Hrel. reflexivity. }
      split.
      * intros En. rewrite (Hfail En).
        rewrite (surjective_pairing a), En. reflexivity.
      * intros En. destruct (Hok En) as [w2 [Hrel [Hadd _]]].
        exists w2. split; [exact Hadd|].
        rewrite Hrel. simpl snd. rewrite mi_free_trace. reflexivity.
Qed.


(** *** The order of the planner's tests *)

(** C5, as the code has it.  The probe of the small free list (lines
    121-136) comes before the natural-fit test (line 27).  For a valid
    request that passes the natural-fit test: when the probe does not hit,
    the call is the regular allocation [_mi_heap_malloc_zero] of [size]
    bytes and nothing else, so its result is returned as it is, without
    carving; when the probe hits, the probed block is allocated with
    [_mi_page_malloc] instead.  The probe cannot hit when the padded size
    is above the small-object ceiling. *)
Theorem natural_fit_delegates_unless_probe_hits :
  forall w heap size alignment offset zero,
    alignment <> 0 ->
    _mi_is_power_of_two alignment = true ->
    size <= PTRDIFF_MAX ->
    mi_natural_fit size alignment offset = true ->
    (mi_probe_hits w heap size alignment offset = false ->
     mi_heap_malloc_zero_aligned_at w heap size alignment offset zero
     = _mi_heap_malloc_zero w heap size zero)
    /\ (mi_probe_hits w heap size alignment offset = true ->
        mi_heap_malloc_zero_aligned_at w heap size alignment offset zero
        = mi_probe_take w heap size zero)
    /\ (MI_SMALL_SIZE_MAX cfg < wrap (size + MI_PADDING_SIZE cfg) ->
        mi_probe_hits w heap size alignment offset = false).
Proof.
  intros w heap size alignment offset zero H0 Hpow Hsize Hfit.
  unfold mi_heap_malloc_zero_aligned_at.
  apply Z.eqb_neq in H0. rewrite H0, Hpow. simpl.
  replace (PTRDIFF_MAX <? size) with false by (symmetry; apply Z.ltb_ge, Hsize).
  repeat split.
  - intros ->. unfold mi_heap_malloc_zero_aligned_at_fallback.
    rewrite Hfit. reflexivity.
  - intros ->. reflexivity.
  - intros Hbig. unfold mi_probe_hits.
    replace (wrap (size + MI_PADDING_SIZE cfg) <=? MI_SMALL_SIZE_MAX cfg)
      with false by (symmetry; apply Z.leb_gt, Hbig).
    reflexivity.
Qed.

(** *** Re-allocation without an explicit offset *)

(** A successful primitive allocation had a power-of-two alignment. *)
Lemma malloc_zero_aligned_at_success_pow2 w heap size alignment offset zero :
  is_size_t alignment ->
  fst (mi_heap_malloc_zero_aligned_at w heap size alignment offset zero) <> NULL ->
  exists k, 0 <= k < 64 /\ alignment = 2 ^ k.
Proof.
  intros Hal Hok. unfold mi_heap_malloc_zero_aligned_at in Hok.
  destruct ((alignment =? 0) || negb (_mi_is_power_of_two alignment)) eqn:Ebad;
    [simpl in Hok; congruence|].
  apply orb_false_elim in Ebad as [E0 Epow].
  apply Z.eqb_neq in E0. apply negb_false_iff in Epow.
  apply mi_is_power_of_two_spec; assumption.
Qed.

Lemma realloc_relocate_result w heap p size newsize alignment offset zero :
  fst (mi_realloc_relocate w heap p size newsize alignment offset zero)
  = fst (mi_heap_malloc_aligned_at w heap newsize alignment offset).
Proof.
  unfold mi_realloc_relocate.
  destruct (mi_heap_malloc_aligned_at w heap newsize alignment offset) as [newp w1].
  destruct (negb (newp =? NULL)); reflexivity.
Qed.

(** What the reallocators without an explicit offset do, for an
    alignment above [sizeof(uintptr_t)] and a non-null pointer [p]: the
    reallocators run the version with an offset at [p mod alignment].  A
    successful result [r] is therefore aligned at that offset.  Either the
    block was reused ([r = p]) or [r + p] is a multiple of the alignment:
    a relocated block has the residue of [- p], not that of [p].  In both
    cases [r] is a multiple of the alignment exactly when [p] is. *)
Theorem realloc_without_offset_aligned :
  forall w heap p newsize alignment zero r w',
    sizeof_uintptr_t < alignment ->
    is_size_t alignment ->
    p <> NULL ->
    (mi_natural_fit newsize alignment (p mod alignment) = true ->
     natural_fit_guarantee w heap newsize alignment false) ->
    page_malloc_guarantee w heap newsize false ->
    mi_heap_realloc_zero_aligned w heap p newsize alignment zero = (r, w') ->
    r <> NULL ->
    mi_heap_realloc_zero_aligned w heap p newsize alignment zero
    = mi_heap_realloc_zero_aligned_at w heap p newsize alignment
        (p mod alignment) zero
    /\ aligned_at r (p mod alignment) alignment
    /\ (r = p \/ (r + p) mod alignment = 0)
    /\ (r mod alignment = 0 <-> p mod alignment = 0).
Proof.
  intros w heap p newsize alignment zero r w' Hal Hsz Hp Hnat Hpage Hrun Hr.
  assert (Hdef : mi_heap_realloc_zero_aligned w heap p newsize alignment zero
                 = mi_heap_realloc_zero_aligned_at w heap p newsize alignment
                     (p mod alignment) zero).
  { unfold mi_heap_realloc_zero_aligned.
    replace (alignment <=? sizeof_uintptr_t) with false
      by (symmetry; apply Z.leb_gt, Hal).
    reflexivity. }
  split; [exact Hdef|].
  rewrite Hdef in Hrun. unfold mi_heap_realloc_zero_aligned_at in Hrun.
  replace (alignment <=? sizeof_uintptr_t) with false in Hrun
    by (symmetry; apply Z.leb_gt, Hal).
  replace (p =? NULL) with false in Hrun by (symmetry; apply Z.eqb_neq, Hp).
  assert (Hapos : 0 < alignment) by (unfold sizeof_uintptr_t in Hal; lia).
  destruct (mi_realloc_fits (mi_usable_size w p) p newsize alignment
              (p mod alignment)) eqn:Efits.
  - inversion Hrun; subst r w'.
    apply realloc_fits_iff in Efits as [_ [_ Halign]].
    repeat split; [exact Halign|left; reflexivity|tauto|tauto].
  - pose proof (realloc_relocate_result w heap p (mi_usable_size w p) newsize
                  alignment (p mod alignment) zero) as Hres.
    rewrite Hrun in Hres. simpl in Hres.
    destruct (mi_heap_malloc_aligned_at w heap newsize alignment (p mod alignment))
      as [newp w1] eqn:Ealloc.
    simpl in Hres. subst newp.
    unfold mi_heap_malloc_aligned_at in Ealloc.
    pose proof (malloc_zero_aligned_at_aligned w heap newsize alignment
                  (p mod alignment) false r w1 Hsz Hnat Hpage Ealloc Hr) as Hmod.
    destruct (malloc_zero_aligned_at_success_pow2 w heap newsize alignment
                (p mod alignment) false Hsz) as [k [Hk Hpow]];
      [rewrite Ealloc; exact Hr|].
    assert (Hsum : (r + p) mod alignment = 0)
      by (rewrite <- Zplus_mod_idemp_r; exact Hmod).
    repeat split.
    + unfold aligned_at. rewrite Hpow, wrap_mod_pow2 by lia.
      rewrite <- Hpow. exact Hmod.
    + right. exact Hsum.
    + intros Hr0. rewrite <- Zplus_mod_idemp_l, Hr0, Z.add_0_l in Hsum.
      exact Hsum.
    + intros Hp0. rewrite <- Zplus_mod_idemp_r, Hp0, Z.add_0_r in Hsum.
      exact Hsum.
Qed.

(** *** Zero-initialised allocation *)

Lemma malloc_zero_result w heap size zero p w' :
  _mi_heap_malloc_zero w heap size zero = (p, w') ->
  base_malloc_zero B (mem w) (alloc w) heap size zero = (p, mem w', alloc w').
Proof. apply base_call_result. Qed.

Lemma page_malloc_result w heap page size zero p w' :
  _mi_page_malloc w heap page size zero = (p, w') ->
  base_page_malloc B (mem w) (alloc w) heap page size zero
  = (p, mem w', alloc w').
Proof. apply base_call_result. Qed.

(** The memory [mi_align_within] leaves: only lines 72-79 write. *)
Lemma align_within_mem w p oversize size alignment offset zero :
  let aligned_p := wrap (p + mi_adjust p alignment offset) in
  let w1 := mi_mark_aligned w p aligned_p in
  mem (snd (mi_align_within w p oversize size alignment offset zero))
  = if zero && (MI_ALIGNMENT_MAX cfg <? alignment) then
      if 0 <? mi_huge_zsize w1 p aligned_p
      then fill (mem w) aligned_p (mi_huge_zsize w1 p aligned_p) 0
      else mem w
    else mem w.
Proof.
  cbv zeta. unfold mi_align_within. cbv zeta. simpl snd.
  set (aligned_p := wrap (p + mi_adjust p alignment offset)).
  set (w1 := mi_mark_aligned w p aligned_p).
  assert (Hm1 : mem w1 = mem w)
    by apply (mark_aligned_frame w p aligned_p zero).
  match goal with
  | |- mem (if _ then mi_track_malloc (mi_track_free_size ?w2 _ _) _ _ _
            else mi_track_resize ?w2 _ _ _) = _ =>
      assert (Hm3 : mem (if negb (p =? aligned_p)
                         then mi_track_malloc (mi_track_free_size w2 p oversize)
                                aligned_p size zero
                         else mi_track_resize w2 aligned_p oversize size)
                    = mem w2)
  end.
  { destruct (negb (p =? aligned_p)).
    - destruct (track_malloc_frame
                  (mi_track_free_size
                     (if zero && (MI_ALIGNMENT_MAX cfg <? alignment)
                      then if 0 <? mi_huge_zsize w1 p aligned_p
                           then _mi_memzero w1 aligned_p (mi_huge_zsize w1 p aligned_p)
                           else w1
                      else w1) p oversize) aligned_p size zero) as [-> _].
      apply track_free_size_frame.
    - apply track_resize_frame. }
  rewrite Hm3.
  destruct (zero && (MI_ALIGNMENT_MAX cfg <? alignment)); [|exact Hm1].
  destruct (0 <? mi_huge_zsize w1 p aligned_p); [|exact Hm1].
  simpl. rewrite Hm1. reflexivity.
Qed.

Lemma align_within_result w p oversize size alignment offset zero :
  fst (mi_align_within w p oversize size alignment offset zero)
  = wrap (p + mi_adjust p alignment offset).
Proof. reflexivity. Qed.

Lemma fill_zeroed m p n k : k <= n -> zeroed (fill m p n 0) p k.
Proof. intros Hk i Hi. apply fill_inside. lia. Qed.

(** Lines 73-77 in plain arithmetic, for a block that lies inside the
    address space and leaves room for the padding after the adjustment:
    the usable size less the adjustment, less [MI_PADDING_SIZE], and less
    [MI_MAX_ALIGN_SIZE] when padding is compiled in. *)
Lemma huge_zsize_value w p k :
  0 <= k < 64 ->
  0 <= p -> p + mi_adjust p (2 ^ k) 0 < modulus ->
  0 <= MI_PADDING_SIZE cfg ->
  0 <= MI_MAX_ALIGN_SIZE cfg < 2 ^ 63 ->
  let usable := mi_page_usable_block_size w (_mi_ptr_page w p) in
  let adjust := mi_adjust p (2 ^ k) 0 in
  adjust + MI_PADDING_SIZE cfg <= usable < 2 ^ 63 ->
  mi_huge_zsize w p (wrap (p + adjust))
  = usable - adjust - MI_PADDING_SIZE cfg
    - (if MI_PADDING cfg then MI_MAX_ALIGN_SIZE cfg else 0).
Proof.
  intros Hk Hp Hend Hpad Hmaxal usable adjust Huse.
  pose proof (mi_adjust_bound p k 0 Hk) as Hadj. fold adjust in Hadj, Hend.
  assert (Hpow : 2 ^ k <= 2 ^ 63) by (apply Z.pow_le_mono_r; lia).
  assert (H63 : 2 * 2 ^ 63 = modulus) by reflexivity.
  unfold mi_huge_zsize. fold usable.
  rewrite (wrap_small (p + adjust)) by (unfold is_size_t; lia).
  replace (p + adjust - p) with adjust by lia.
  rewrite (wrap_small adjust) by (unfold is_size_t; lia).
  assert (Hd : to_ptrdiff adjust = adjust).
  { unfold to_ptrdiff. destruct (Z.ltb_spec adjust (2 ^ 63)); lia. }
  rewrite Hd.
  rewrite (wrap_small (usable - adjust - MI_PADDING_SIZE cfg))
    by (unfold is_size_t; lia).
  assert (Hz : to_ptrdiff (usable - adjust - MI_PADDING_SIZE cfg)
               = usable - adjust - MI_PADDING_SIZE cfg).
  { unfold to_ptrdiff.
    destruct (Z.ltb_spec (usable - adjust - MI_PADDING_SIZE cfg) (2 ^ 63)); lia. }
  rewrite Hz.
  destruct (MI_PADDING cfg); [|lia].
  set (z := usable - adjust - MI_PADDING_SIZE cfg) in *.
  destruct (Z_lt_le_dec (z - MI_MAX_ALIGN_SIZE cfg) 0) as [Hneg|Hnn].
  - unfold wrap.
    replace (z - MI_MAX_ALIGN_SIZE cfg)
      with ((z - MI_MAX_ALIGN_SIZE cfg + modulus) + (-1) * modulus) by lia.
    rewrite Z.mod_add by (unfold modulus; lia).
    rewrite Z.mod_small by lia.
    unfold to_ptrdiff.
    destruct (Z.ltb_spec (z - MI_MAX_ALIGN_SIZE cfg + modulus) (2 ^ 63)); lia.
  - rewrite wrap_small by (unfold is_size_t; lia).
    unfold to_ptrdiff.
    destruct (Z.ltb_spec (z - MI_MAX_ALIGN_SIZE cfg) (2 ^ 63)); lia.
Qed.

Lemma fallback_zeroed w heap size k offset p w' :
  0 <= k < 64 -> 0 <= size <= PTRDIFF_MAX ->
  MI_ALIGNMENT_MAX cfg < 2 ^ 63 ->
  malloc_zero_guarantee w ->
  (MI_ALIGNMENT_MAX cfg < 2 ^ k -> huge_zero_covers w heap size (2 ^ k)) ->
  mi_heap_malloc_zero_aligned_at_fallback w heap size (2 ^ k) offset true
  = (p, w') ->
  p <> NULL ->
  zeroed (mem w') p size.
Proof.
  intros Hk Hsize Hmax Hzero Hhuge Hrun Hp.
  unfold mi_heap_malloc_zero_aligned_at_fallback in Hrun.
  destruct (mi_natural_fit size (2 ^ k) offset).
  { apply malloc_zero_result in Hrun. apply (Hzero _ _ _ _ _ Hrun Hp). }
  destruct (Z.ltb_spec (MI_ALIGNMENT_MAX cfg) (2 ^ k)) as [Hbig|Hsmall].
  - destruct (Z.eqb_spec offset 0) as [->|]; [|inversion Hrun; congruence].
    simpl negb in Hrun. cbv iota in Hrun.
    destruct (_mi_heap_malloc_zero_ex w heap (mi_huge_oversize size) false (2 ^ k))
      as [q w1] eqn:Eex.
    destruct (Z.eqb_spec q NULL) as [|Hq]; [inversion Hrun; congruence|].
    specialize (Hhuge Hbig q w1 Eex Hq). cbv zeta in Hhuge.
    pose proof (align_within_mem w1 q (mi_huge_oversize size) size (2 ^ k) 0 true)
      as Hmem.
    pose proof (align_within_result w1 q (mi_huge_oversize size) size (2 ^ k) 0 true)
      as Hres.
    rewrite Hrun in Hmem, Hres. cbv zeta in Hmem. simpl fst in Hres. simpl snd in Hmem.
    replace (MI_ALIGNMENT_MAX cfg <? 2 ^ k) with true in Hmem
      by (symmetry; apply Z.ltb_lt, Hbig).
    simpl andb in Hmem. cbv iota in Hmem.
    intros i Hi. rewrite Hmem, Hres.
    replace (0 <? _) with true by (symmetry; apply Z.ltb_lt; lia).
    apply fill_inside. lia.
  - destruct (_mi_heap_malloc_zero w heap (wrap (wrap (size + 2 ^ k) - 1)) true)
      as [q w1] eqn:Eover.
    destruct (Z.eqb_spec q NULL) as [|Hq]; [inversion Hrun; congruence|].
    apply malloc_zero_result in Eover.
    destruct (Hzero _ _ _ _ _ Eover Hq) as [Hq0 [Hend Hz]].
    pose proof (align_within_mem w1 q (wrap (wrap (size + 2 ^ k) - 1)) size
                  (2 ^ k) offset true) as Hmem.
    pose proof (align_within_result w1 q (wrap (wrap (size + 2 ^ k) - 1)) size
                  (2 ^ k) offset true) as Hres.
    rewrite Hrun in Hmem, Hres. cbv zeta in Hmem. simpl fst in Hres. simpl snd in Hmem.
    replace (MI_ALIGNMENT_MAX cfg <? 2 ^ k) with false in Hmem
      by (symmetry; apply Z.ltb_ge, Hsmall).
    simpl andb in Hmem. cbv iota in Hmem.
    pose proof (mi_adjust_bound q k offset Hk) as Hadj.
    assert (Hpos : 0 < 2 ^ k) by (apply Z.pow_pos_nonneg; lia).
    unfold PTRDIFF_MAX in Hsize.
    assert (Hover : wrap (wrap (size + 2 ^ k) - 1) = size + 2 ^ k - 1).
    { rewrite (wrap_small (size + 2 ^ k)) by (unfold is_size_t, modulus; lia).
      apply wrap_small. unfold is_size_t, modulus. lia. }
    rewrite Hover in Hend, Hz.
    intros i Hi. rewrite Hmem, Hres.
    rewrite wrap_small by (unfold is_size_t; lia).
    rewrite <- Z.add_assoc. apply Hz. lia.
Qed.

(** Zero-initialisation, path by path.  After a successful
    zero-initialising aligned allocation the bytes [[p, p + size)] read as
    zero on the small-object fast path, on the natural-fit path and on the
    over-allocating path, given that the base allocator zero-initialises
    the blocks it is asked to.  On the huge-alignment path the block is
    allocated without zeroing and lines 72-79 zero [mi_huge_zsize] bytes
    from the aligned address on; the requested bytes read as zero when
    that count reaches [size] (see
    [zero_allocation_reads_zero_without_padding] for the builds in which
    it does). *)
Theorem zero_allocation_reads_zero :
  forall w heap size alignment offset p w',
    is_size_t alignment ->
    0 <= size ->
    0 <= MI_PADDING_SIZE cfg < 2 ^ 63 ->
    MI_ALIGNMENT_MAX cfg < 2 ^ 63 ->
    malloc_zero_guarantee w ->
    page_malloc_zero_guarantee w ->
    (MI_ALIGNMENT_MAX cfg < alignment ->
     huge_zero_covers w heap size alignment) ->
    mi_heap_malloc_zero_aligned_at w heap size alignment offset true = (p, w') ->
    p <> NULL ->
    zeroed (mem w') p size.
Proof.
  intros w heap size alignment offset p w' Hal Hsize Hpad Hmax Hzero Hpagez
         Hhuge Hrun Hp.
  unfold mi_heap_malloc_zero_aligned_at in Hrun.
  destruct ((alignment =? 0) || negb (_mi_is_power_of_two alignment)) eqn:Ebad;
    [inversion Hrun; congruence|].
  apply orb_false_elim in Ebad as [E0 Epow].
  apply Z.eqb_neq in E0. apply negb_false_iff in Epow.
  destruct (mi_is_power_of_two_spec alignment Hal E0 Epow) as [k [Hk ->]].
  destruct (Z.ltb_spec PTRDIFF_MAX size) as [|Hfit];
    [inversion Hrun; congruence|].
  destruct (mi_probe_hits w heap size (2 ^ k) offset).
  - unfold mi_probe_take in Hrun. cbv zeta in Hrun.
    destruct (_mi_page_malloc (mi_heap_stat_increase w heap size) heap
                (_mi_heap_get_free_small_page w heap (wrap (size + MI_PADDING_SIZE cfg)))
                (wrap (size + MI_PADDING_SIZE cfg)) true) as [q w2] eqn:E.
    inversion Hrun; subst q w'.
    apply page_malloc_result in E.
    destruct (stat_increase_frame w heap size) as [Hm [Ha _]].
    rewrite Hm, Ha in E.
    pose proof (Hpagez _ _ _ _ _ _ E Hp) as Hz.
    destruct (track_malloc_frame w2 p size true) as [-> _].
    unfold PTRDIFF_MAX in Hfit.
    rewrite wrap_small in Hz by (unfold is_size_t, modulus; lia).
    intros i Hi. apply Hz. lia.
  - eapply fallback_zeroed; try eassumption. lia.
Qed.

(** In a build without padding the zero-initialising allocation delivers
    what its callers expect on every path: the assertion of line 67, that
    the block holds the adjustment and [size], is all the huge-alignment
    path needs, since lines 74-77 then zero the whole usable size past the
    adjustment. *)
Theorem zero_allocation_reads_zero_without_padding :
  forall w heap size alignment offset p w',
    is_size_t alignment ->
    0 <= size ->
    MI_PADDING cfg = false ->
    MI_PADDING_SIZE cfg = 0 ->
    MI_ALIGNMENT_MAX cfg < 2 ^ 63 ->
    malloc_zero_guarantee w ->
    page_malloc_zero_guarantee w ->
    (MI_ALIGNMENT_MAX cfg < alignment ->
     huge_block_guarantee w heap size alignment) ->
    mi_heap_malloc_zero_aligned_at w heap size alignment offset true = (p, w') ->
    p <> NULL ->
    zeroed (mem w') p size.
Proof.
  intros w heap size alignment offset p w' Hal Hsize Hnopad Hpad0 Hmax Hzero
         Hpagez Hblock Hrun Hp.
  assert (Hok : fst (mi_heap_malloc_zero_aligned_at w heap size alignment
                       offset true) <> NULL)
    by (rewrite Hrun; exact Hp).
  destruct (malloc_zero_aligned_at_success_pow2 _ _ _ _ _ _ Hal Hok)
    as [k [Hk Ek]].
  subst alignment.
  assert (H63 : 0 < 2 ^ 63) by reflexivity.
  assert (Hmod : 2 * 2 ^ 63 = modulus) by reflexivity.
  apply (zero_allocation_reads_zero w heap size (2 ^ k) offset p w');
    try assumption.
  - rewrite Hpad0. lia.
  - intros Hh q w1 E Hq. cbv zeta.
    destruct (Hblock Hh q w1 E Hq) as (Hq0 & Hend & Huse & Hlt).
    cbv zeta in Hend, Huse, Hlt.
    pose proof (mi_adjust_bound q k 0 Hk) as Hadj.
    assert (Hpow : 2 ^ k <= 2 ^ 63) by (apply Z.pow_le_mono_r; lia).
    set (adjust := mi_adjust q (2 ^ k) 0) in *.
    set (w2 := mi_mark_aligned w1 q (wrap (q + adjust))) in *.
    set (usable := mi_page_usable_block_size w2 (_mi_ptr_page w2 q)) in *.
    unfold mi_huge_zsize. fold usable. rewrite Hnopad, Hpad0.
    rewrite (wrap_small (q + adjust)) by (unfold is_size_t; lia).
    replace (q + adjust - q) with adjust by lia.
    rewrite (wrap_small adjust) by (unfold is_size_t; lia).
    assert (Hd : to_ptrdiff adjust = adjust).
    { unfold to_ptrdiff. destruct (Z.ltb_spec adjust (2 ^ 63)); lia. }
    rewrite Hd.
    rewrite (wrap_small (usable - adjust - 0)) by (unfold is_size_t; lia).
    unfold to_ptrdiff.
    destruct (Z.ltb_spec (usable - adjust - 0) (2 ^ 63)); lia.
Qed.

(** *** Rejected requests *)

(** Lines 98-117: the primitive rejects an invalid alignment and an
    oversized request before anything else happens. *)
Lemma malloc_zero_aligned_at_rejects w heap size alignment offset zero :
  alignment = 0 \/ _mi_is_power_of_two alignment = false
  \/ PTRDIFF_MAX < size ->
  mi_heap_malloc_zero_aligned_at w heap size alignment offset zero
  = (NULL, _mi_error_message w EOVERFLOW).
Proof.
  intros H. unfold mi_heap_malloc_zero_aligned_at.
  destruct ((alignment =? 0) || negb (_mi_is_power_of_two alignment)) eqn:E;
    [reflexivity|].
  apply orb_false_elim in E as [E1 E2].
  apply Z.eqb_neq in E1. apply negb_false_iff in E2.
  destruct H as [H|[H|H]]; [contradiction|congruence|].
  apply Z.ltb_lt in H. rewrite H. reflexivity.
Qed.

(** Lines 35-45: the fallback rejects an offset together with a very large
    alignment. *)
Lemma fallback_rejects_huge_offset w heap size alignment offset zero :
  MI_ALIGNMENT_MAX cfg < alignment -> offset <> 0 ->
  mi_heap_malloc_zero_aligned_at_fallback w heap size alignment offset zero
  = (NULL, _mi_error_message w EOVERFLOW).
Proof.
  intros Hbig Hoff. unfold mi_heap_malloc_zero_aligned_at_fallback, mi_natural_fit.
  apply Z.eqb_neq in Hoff. rewrite Hoff. simpl.
  apply Z.ltb_lt in Hbig. rewrite Hbig. reflexivity.
Qed.

(** C7.  A request whose alignment exceeds [MI_ALIGNMENT_MAX] and whose
    offset is not zero returns [NULL], and neither memory nor the base
    allocator is touched on the way.  The small-object ceiling lies below
    the alignment ceiling in every build of the allocator; this is the one
    assumption on the constants. *)
Theorem huge_alignment_with_offset_is_rejected :
  forall w heap size alignment offset zero,
    MI_SMALL_SIZE_MAX cfg <= MI_ALIGNMENT_MAX cfg ->
    MI_ALIGNMENT_MAX cfg < alignment ->
    offset <> 0 ->
    fst (mi_heap_malloc_zero_aligned_at w heap size alignment offset zero)
    = NULL
    /\ untouched w
         (snd (mi_heap_malloc_zero_aligned_at w heap size alignment offset zero)).
Proof.
  intros w heap size alignment offset zero Hcfg Hbig Hoff.
  assert (Hrej : mi_heap_malloc_zero_aligned_at w heap size alignment offset zero
                 = (NULL, _mi_error_message w EOVERFLOW)).
  { unfold mi_heap_malloc_zero_aligned_at.
    destruct ((alignment =? 0) || negb (_mi_is_power_of_two alignment));
      [reflexivity|].
    destruct (PTRDIFF_MAX <? size); [reflexivity|].
    assert (Hprobe : mi_probe_hits w heap size alignment offset = false).
    { unfold mi_probe_hits.
      destruct (Z.leb_spec (wrap (size + MI_PADDING_SIZE cfg)) (MI_SMALL_SIZE_MAX cfg));
        [|reflexivity].
      destruct (Z.leb_spec alignment (wrap (size + MI_PADDING_SIZE cfg)));
        [lia|reflexivity]. }
    rewrite Hprobe. apply fallback_rejects_huge_offset; assumption. }
  rewrite Hrej. split; [reflexivity|apply error_message_untouched].
Qed.

(** C8.  When [count * size] does not fit a [size_t], every counted variant
    returns [NULL] and leaves the state as it found it: no allocation or
    reallocation logic runs. *)
Theorem counted_variants_reject_overflow :
  forall w heap p count size alignment offset,
    SIZE_MAX < count * size ->
    mi_heap_calloc_aligned_at w heap count size alignment offset = (NULL, w)
    /\ mi_heap_calloc_aligned w heap count size alignment = (NULL, w)
    /\ mi_calloc_aligned_at w count size alignment offset = (NULL, w)
    /\ mi_calloc_aligned w count size alignment = (NULL, w)
    /\ mi_heap_recalloc_aligned_at w heap p count size alignment offset
       = (NULL, w)
    /\ mi_heap_recalloc_aligned w heap p count size alignment = (NULL, w)
    /\ mi_recalloc_aligned_at w p count size alignment offset = (NULL, w)
    /\ mi_recalloc_aligned w p count size alignment = (NULL, w).
Proof.
  intros w heap p count size alignment offset Hov.
  apply Z.ltb_lt in Hov.
  unfold mi_calloc_aligned_at, mi_calloc_aligned, mi_heap_calloc_aligned,
    mi_recalloc_aligned_at, mi_recalloc_aligned,
    mi_heap_calloc_aligned_at, mi_heap_recalloc_aligned_at,
    mi_heap_recalloc_aligned, mi_count_size_overflow.
  rewrite Hov. repeat split; reflexivity.
Qed.

(** When the entry assertion passes: no assertions in the build, or a
    positive alignment. *)
Lemma assert_passes_iff alignment :
  mi_assert_aborts (0 <? alignment) = false
  <-> (MI_DEBUG cfg <= 0 \/ 0 < alignment).
Proof.
  unfold mi_assert_aborts.
  destruct (Z.ltb_spec 0 (MI_DEBUG cfg)) as [Hd|Hd];
    destruct (Z.ltb_spec 0 alignment) as [Ha|Ha];
    simpl; split; intros Hx; try reflexivity; try discriminate; lia.
Qed.

(** Past the entry assertion [mi_heap_malloc_aligned] runs as embedded. *)
Lemma malloc_aligned_asserted_passes w heap size alignment :
  mi_assert_aborts (0 <? alignment) = false ->
  mi_heap_malloc_aligned_asserted w heap size alignment
  = Some (mi_heap_malloc_aligned w heap size alignment).
Proof.
  intros Hpass.
  unfold mi_heap_malloc_aligned_asserted, mi_heap_malloc_aligned,
    mi_heap_malloc_zero_aligned_at_asserted, mi_heap_malloc_aligned_at.
  rewrite Hpass.
  destruct (negb (MI_PADDING cfg)).
  - destruct (negb (_mi_is_power_of_two alignment)); [reflexivity|].
    destruct (_mi_is_power_of_two size && (alignment <=? size)
              && (size <=? MI_SMALL_SIZE_MAX cfg)); reflexivity.
  - destruct (((alignment =? sizeof_voidp)
               || (alignment =? MI_MAX_ALIGN_SIZE cfg)
                  && (MI_MAX_ALIGN_SIZE cfg / 2 <? size))
              && (size <=? MI_SMALL_SIZE_MAX cfg)); reflexivity.
Qed.

Lemma malloc_zero_aligned_at_asserted_passes w heap size alignment offset zero :
  mi_assert_aborts (0 <? alignment) = false ->
  mi_heap_malloc_zero_aligned_at_asserted w heap size alignment offset zero
  = Some (mi_heap_malloc_zero_aligned_at w heap size alignment offset zero).
Proof.
  intros Hpass. unfold mi_heap_malloc_zero_aligned_at_asserted.
  rewrite Hpass. reflexivity.
Qed.

(** C10, as the code has it.  A re-allocation with an alignment of at most
    [sizeof(uintptr_t)] that gets past the entry assertion
    [alignment > 0] - every alignment from 1 on, powers of two or not, and
    the alignment 0 in a build without assertions - is the unaligned
    [_mi_heap_realloc_zero] and nothing else: the alignment is not looked
    at again, so it cannot make the call return [NULL].  The primitive
    allocation behind the entry points that take an offset, in contrast,
    returns [NULL] under the same condition for an alignment that is zero
    or not a power of two. *)
Theorem small_alignment_realloc_delegates :
  forall w heap p newsize alignment offset zero,
    alignment <= sizeof_uintptr_t ->
    mi_assert_aborts (0 <? alignment) = false ->
    mi_heap_realloc_zero_aligned_at_asserted w heap p newsize alignment offset
      zero
    = Some (_mi_heap_realloc_zero w heap p newsize zero)
    /\ mi_heap_realloc_zero_aligned_asserted w heap p newsize alignment zero
       = Some (_mi_heap_realloc_zero w heap p newsize zero)
    /\ (alignment = 0 \/ _mi_is_power_of_two alignment = false ->
        mi_heap_malloc_zero_aligned_at_asserted w heap newsize alignment
          offset zero
        = Some (NULL, _mi_error_message w EOVERFLOW)).
Proof.
  intros w heap p newsize alignment offset zero Hal Hpass.
  apply Z.leb_le in Hal.
  unfold mi_heap_realloc_zero_aligned_at_asserted,
    mi_heap_realloc_zero_aligned_asserted,
    mi_heap_malloc_zero_aligned_at_asserted,
    mi_heap_realloc_zero_aligned_at, mi_heap_realloc_zero_aligned.
  rewrite Hpass, Hal. repeat split.
  intros Hbad. rewrite malloc_zero_aligned_at_rejects; [reflexivity|tauto].
Qed.

(** *** The entry point without an offset *)

(** The primitive rejects without touching anything. *)
Lemma malloc_zero_aligned_at_rejects_untouched w heap size alignment offset zero :
  alignment = 0 \/ _mi_is_power_of_two alignment = false
  \/ PTRDIFF_MAX < size ->
  fst (mi_heap_malloc_zero_aligned_at w heap size alignment offset zero) = NULL
  /\ untouched w
       (snd (mi_heap_malloc_zero_aligned_at w heap size alignment offset zero)).
Proof.
  intros H. rewrite malloc_zero_aligned_at_rejects by exact H.
  split; [reflexivity|apply error_message_untouched].
Qed.

(** With padding compiled in, the fast path of [mi_heap_malloc_aligned]
    (lines 157-158) is taken for two valid alignments and small sizes only,
    so the rejections of the primitive carry over. *)
Lemma malloc_aligned_padding_rejects w heap size alignment :
  MI_PADDING cfg = true ->
  _mi_is_power_of_two (MI_MAX_ALIGN_SIZE cfg) = true ->
  MI_MAX_ALIGN_SIZE cfg <> 0 ->
  MI_SMALL_SIZE_MAX cfg <= PTRDIFF_MAX ->
  alignment = 0 \/ _mi_is_power_of_two alignment = false
  \/ PTRDIFF_MAX < size ->
  fst (mi_heap_malloc_aligned w heap size alignment) = NULL
  /\ untouched w (snd (mi_heap_malloc_aligned w heap size alignment)).
Proof.
  intros Hpad Hmax Hmax0 Hsmall Hbad. unfold mi_heap_malloc_aligned.
  rewrite Hpad. simpl negb. cbv iota.
  destruct (((alignment =? sizeof_voidp)
             || (alignment =? MI_MAX_ALIGN_SIZE cfg)
                && (MI_MAX_ALIGN_SIZE cfg / 2 <? size))
            && (size <=? MI_SMALL_SIZE_MAX cfg)) eqn:Efast.
  - exfalso. apply andb_prop in Efast as [Eal Esz]. apply Z.leb_le in Esz.
    destruct Hbad as [H|[H|H]]; [| |lia].
    + subst alignment. apply orb_prop in Eal as [E|E].
      * discriminate.
      * apply andb_prop in E as [E _]. apply Z.eqb_eq in E. congruence.
    + apply orb_prop in Eal as [E|E].
      * apply Z.eqb_eq in E. subst alignment. discriminate.
      * apply andb_prop in E as [E _]. apply Z.eqb_eq in E. congruence.
  - apply malloc_zero_aligned_at_rejects_untouched, Hbad.
Qed.

(** Without padding, line 153 rejects an alignment that fails
    [_mi_is_power_of_two], and an oversized request reaches the primitive. *)
Lemma malloc_aligned_nopadding_rejects w heap size alignment :
  MI_PADDING cfg = false ->
  MI_SMALL_SIZE_MAX cfg <= PTRDIFF_MAX ->
  _mi_is_power_of_two alignment = false \/ PTRDIFF_MAX < size ->
  fst (mi_heap_malloc_aligned w heap size alignment) = NULL
  /\ untouched w (snd (mi_heap_malloc_aligned w heap size alignment)).
Proof.
  intros Hpad Hsmall Hbad. unfold mi_heap_malloc_aligned.
  rewrite Hpad. simpl negb. cbv iota.
  destruct (_mi_is_power_of_two alignment) eqn:Epow.
  - destruct Hbad as [H|H]; [discriminate|]. simpl negb. cbv iota.
    replace (size <=? MI_SMALL_SIZE_MAX cfg) with false
      by (symmetry; apply Z.leb_gt; lia).
    rewrite andb_false_r.
    apply malloc_zero_aligned_at_rejects_untouched. tauto.
  - simpl. repeat split.
Qed.

(** Without padding, line 153 lets the alignment 0 through, and line 154
    then sends every small power-of-two size (and size 0) to
    [mi_heap_malloc_small]. *)
Lemma malloc_aligned_nopadding_zero_alignment w heap size :
  MI_PADDING cfg = false ->
  _mi_is_power_of_two size = true ->
  0 <= size <= MI_SMALL_SIZE_MAX cfg ->
  mi_heap_malloc_aligned w heap size 0 = mi_heap_malloc_small w heap size.
Proof.
  intros Hpad Hpow Hsize. unfold mi_heap_malloc_aligned.
  rewrite Hpad, Hpow. simpl.
  replace (0 <=? size) with true by (symmetry; apply Z.leb_le; lia).
  replace (size <=? MI_SMALL_SIZE_MAX cfg) with true
    by (symmetry; apply Z.leb_le; lia).
  reflexivity.
Qed.

End Properties.

(** ** The bump allocator meets the assumptions *)

Lemma bump_malloc_zero_guarantee (next free usable : Z) :
  0 <= next ->
  malloc_zero_guarantee (B := bump_allocator) (bump_world next free usable).
Proof.
  intros Hn heap sz p m a. simpl. unfold bump_take. simpl.
  destruct (Z.eqb_spec next NULL) as [|Hnn]; simpl.
  { intros E; inversion E; congruence. }
  destruct (Z.ltb_spec modulus (next + sz)); intros E Hp; inversion E; subst.
  - congruence.
  - repeat split; [lia|lia|]. apply fill_zeroed. lia.
Qed.

Lemma bump_page_malloc_zero_guarantee (cfg : mi_config) (next free usable : Z) :
  0 <= MI_PADDING_SIZE cfg ->
  page_malloc_zero_guarantee (cfg := cfg) (B := bump_allocator)
    (bump_world next free usable).
Proof.
  intros Hpad heap page sz p m a. simpl. unfold bump_page_malloc, bump_take. simpl.
  destruct (free =? NULL).
  - destruct ((next =? NULL) || (modulus <? next + sz));
      intros E Hp; inversion E; subst; [congruence|].
    apply fill_zeroed. lia.
  - intros E Hp; inversion E; subst. apply fill_zeroed. lia.
Qed.

(** ** Concrete runs

    The theorems above at concrete requests, on the bump allocator, and the
    requests at which the code departs from the specification. *)

Local Ltac by_computation :=
  vm_compute; repeat split; solve [reflexivity | discriminate].

(** A run is determined by the pointer it returns and the state it leaves;
    only the pointer is computed. *)
Lemma run_result (X Y : Type) (r : X * Y) (x : X) :
  fst r = x -> r = (x, snd r).
Proof. intros <-. apply surjective_pairing. Qed.


(** A region is zeroed when each of its bytes evaluates to zero. *)
Lemma zeroed_by_evaluation (m : memory) (p : Z) (n : nat) :
  forallb (fun i => m (p + Z.of_nat i) =? 0) (seq 0 n) = true ->
  zeroed m p (Z.of_nat n).
Proof.
  intros H i Hi. rewrite forallb_forall in H.
  specialize (H (Z.to_nat i)). rewrite Z2Nat.id in H by lia.
  apply Z.eqb_eq, H. apply in_seq. lia.
Qed.

(** A release build on the huge-alignment path, with a block whose usable
    size is exactly the adjustment plus the 2000 bytes requested. *)
Lemma zero_allocation_reads_zero_without_padding_witness :
  zeroed
    (mem (snd (mi_heap_malloc_zero_aligned_at (cfg := mi_release_config)
                 (B := bump_allocator)
                 (bump_world 33619968 0 (33488896 + 2000))
                 1 2000 33554432 0 true)))
    67108864 2000.
Proof.
  apply (@zero_allocation_reads_zero_without_padding mi_release_config bump
           bump_allocator
           (bump_world 33619968 0 (33488896 + 2000)) 1 2000 33554432 0
           67108864).
  - by_computation.
  - by_computation.
  - reflexivity.
  - reflexivity.
  - by_computation.
  - apply bump_malloc_zero_guarantee. by_computation.
  - apply bump_page_malloc_zero_guarantee. by_computation.
  - intros _ p w1 E _. vm_compute in E. injection E as <- <-.
    vm_compute. repeat split; solve [reflexivity | discriminate].
  - apply run_result. vm_compute. reflexivity.
  - by_computation.
Defined.

(** A debug build on the huge-alignment path, with a block that leaves room
    for the padding reserve behind the 2000 bytes requested. *)
Lemma zero_allocation_reads_zero_witness :
  zeroed
    (mem (snd (mi_heap_malloc_zero_aligned_at (cfg := mi_debug_config)
                 (B := bump_allocator)
                 (bump_world 33619968 0 (33488896 + 2024))
                 1 2000 33554432 0 true)))
    67108864 2000.
Proof.
  apply (@zero_allocation_reads_zero mi_debug_config bump bump_allocator
           (bump_world 33619968 0 (33488896 + 2024)) 1 2000 33554432 0
           67108864).
  - by_computation.
  - by_computation.
  - by_computation.
  - by_computation.
  - apply bump_malloc_zero_guarantee. by_computation.
  - apply bump_page_malloc_zero_guarantee. by_computation.
  - intros _ p w1 E _. vm_compute in E. injection E as <- <-.
    vm_compute. discriminate.
  - apply run_result. vm_compute. reflexivity.
  - by_computation.
Defined.

(** C2 fails on the code.  A build with padding, a huge alignment, and a
    block whose usable size is exactly the adjustment plus the 2000 bytes
    requested, which is all that line 67 asks for.  The base allocator
    zero-initialises whatever it is asked to and the zero-initialising
    allocation succeeds, but lines 74-77 take [MI_PADDING_SIZE] and
    [MI_MAX_ALIGN_SIZE] off a usable size that excludes the padding
    already: 1976 bytes are zeroed and the last 24 bytes of the region
    keep their old contents. *)
Theorem zero_allocation_padded_huge_run :
  let w := bump_world 33619968 0 (33488896 + 2000) in
  let r :=
    mi_heap_malloc_zero_aligned_at (cfg := mi_debug_config)
      (B := bump_allocator) w 1 2000 33554432 0 true in
  malloc_zero_guarantee (B := bump_allocator) w
  /\ page_malloc_zero_guarantee (cfg := mi_debug_config) (B := bump_allocator) w
  /\ fst r = 67108864 /\ fst r <> NULL
  /\ mi_adjust 33619968 33554432 0 + 2000
     <= mi_page_usable_block_size (B := bump_allocator) (snd r)
          (_mi_ptr_page (B := bump_allocator) (snd r) 33619968)
  /\ base_calls (trace (snd r))
     = [EvSetHasAligned 7 true; EvMallocZeroEx 1 2000 false 33554432 33619968]
  /\ zeroed (mem (snd r)) (fst r) 1976
  /\ mem (snd r) (fst r + 1976) = 170
  /\ mem (snd r) (fst r + 1999) = 170
  /\ ~ zeroed (mem (snd r)) (fst r) 2000.
Proof.
  intros w r.
  split; [apply bump_malloc_zero_guarantee; by_computation|].
  split; [apply bump_page_malloc_zero_guarantee; by_computation|].
  split; [vm_compute; reflexivity|].
  split; [by_computation|].
  split; [by_computation|].
  split; [vm_compute; reflexivity|].
  split.
  { apply (zeroed_by_evaluation (mem (snd r)) (fst r) 1976).
    vm_compute. reflexivity. }
  split; [vm_compute; reflexivity|].
  split; [vm_compute; reflexivity|].
  intros H. specialize (H 1999 ltac:(lia)). vm_compute in H. discriminate.
Qed.

(** The block at 4096 with 64 usable bytes is reused for a new size of 40
    and relocated to 8192 for a new size of 100. *)
Lemma realloc_reuses_block_iff_witness :
  let w := bump_world 8192 0 64 in
  let r :=
    mi_heap_realloc_zero_aligned_at (cfg := mi_release_config)
      (B := bump_allocator) w 1 4096 100 16 0 false in
  mi_heap_realloc_zero_aligned_at (cfg := mi_release_config)
    (B := bump_allocator) w 1 4096 40 16 0 true
  = (4096, w)
  /\ fst r = 8192
  /\ exists w2 : world bump,
       trace (snd r) = EvFree 4096 :: EvMemcpy 8192 4096 64 :: trace w2.
Proof.
  intros w r. split.
  - pose proof (@realloc_reuses_block_iff mi_release_config bump bump_allocator
                  w 1 4096 40 16 0 true
                  ltac:(by_computation) ltac:(by_computation)) as H.
    cbv zeta in H. destruct H as [[_ Hreuse] _].
    apply Hreuse. by_computation.
  - pose proof (@realloc_reuses_block_iff mi_release_config bump bump_allocator
                  w 1 4096 100 16 0 false
                  ltac:(by_computation) ltac:(by_computation)) as H.
    cbv zeta in H. destruct H as [_ Hmove].
    assert (Hnot : ~ (100 <= mi_usable_size (B := bump_allocator) w 4096
                      /\ mi_usable_size (B := bump_allocator) w 4096 <= 2 * 100
                      /\ aligned_at 4096 0 16)).
    { intros [Hle _]. vm_compute in Hle. apply Hle. reflexivity. }
    destruct (Hmove Hnot) as [Hptr [_ Hok]].
    split; [unfold r; rewrite Hptr; vm_compute; reflexivity|].
    destruct (Hok ltac:(by_computation)) as [w2 [_ Htrace]].
    exists w2. exact Htrace.
Defined.


(** The natural fit with an empty small free list: the regular allocation. *)
Lemma natural_fit_delegates_unless_probe_hits_witness :
  mi_heap_malloc_zero_aligned_at (cfg := mi_release_config)
    (B := bump_allocator) (bump_world 8192 0 32) 1 32 16 0 false
  = _mi_heap_malloc_zero (B := bump_allocator) (bump_world 8192 0 32) 1 32 false.
Proof.
  apply (@natural_fit_delegates_unless_probe_hits mi_release_config bump
           bump_allocator (bump_world 8192 0 32) 1 32 16 0 false).
  - by_computation.
  - vm_compute. reflexivity.
  - by_computation.
  - vm_compute. reflexivity.
  - vm_compute. reflexivity.
Defined.

(** C5 fails as stated: the request passes the natural-fit test, the small
    free list holds an aligned block, and the block comes from
    [_mi_page_malloc]; the regular allocation is not called. *)
Lemma natural_fit_probe_counterexample :
  let w := bump_world 8192 4096 32 in
  let r :=
    mi_heap_malloc_zero_aligned_at (cfg := mi_release_config)
      (B := bump_allocator) w 1 32 16 0 false in
  mi_natural_fit (cfg := mi_release_config) 32 16 0 = true
  /\ base_calls (trace (snd r)) = [EvPageMalloc 1 7 32 false 4096]
  /\ fst r = 4096
  /\ fst (_mi_heap_malloc_zero (B := bump_allocator) w 1 32 false) = 8192
  /\ r <> _mi_heap_malloc_zero (B := bump_allocator) w 1 32 false.
Proof.
  intros w r.
  repeat split; try (vm_compute; reflexivity).
  intros H. apply (f_equal fst) in H. vm_compute in H. discriminate.
Qed.

(** C6 fails on the code: in a build without padding,
    [mi_heap_malloc_aligned] with alignment 0 and size 8 calls
    [mi_heap_malloc_small] and returns its block. *)
Theorem malloc_aligned_zero_alignment_allocates :
  let w := bump_world 4096 0 64 in
  let r :=
    mi_heap_malloc_aligned (cfg := mi_release_config) (B := bump_allocator)
      w 1 8 0 in
  fst r = 4096 /\ fst r <> NULL
  /\ base_calls (trace (snd r)) = [EvMallocSmall 1 8 4096].
Proof. intros w r. by_computation. Qed.

(** An offset of 8 with an alignment of 32 MiB. *)
Lemma huge_alignment_with_offset_is_rejected_witness :
  let r :=
    mi_heap_malloc_zero_aligned_at (cfg := mi_debug_config)
      (B := bump_allocator) (bump_world 8192 0 64) 1 100 33554432 8 true in
  fst r = NULL /\ untouched (bump_world 8192 0 64) (snd r).
Proof.
  apply (@huge_alignment_with_offset_is_rejected mi_debug_config bump
           bump_allocator (bump_world 8192 0 64) 1 100 33554432 8 true).
  - by_computation.
  - by_computation.
  - by_computation.
Defined.

(** [2^33] elements of [2^33] bytes. *)
Lemma counted_variants_reject_overflow_witness :
  mi_heap_calloc_aligned_at (cfg := mi_release_config) (B := bump_allocator)
    (bump_world 8192 0 64) 1 8589934592 8589934592 16 0
  = (NULL, bump_world 8192 0 64)
  /\ mi_heap_recalloc_aligned (cfg := mi_release_config) (B := bump_allocator)
       (bump_world 8192 0 64) 1 4096 8589934592 8589934592 16
     = (NULL, bump_world 8192 0 64).
Proof.
  pose proof (@counted_variants_reject_overflow mi_release_config bump
                bump_allocator (bump_world 8192 0 64) 1 4096
                8589934592 8589934592 16 0 ltac:(by_computation)) as H.
  destruct H as [H1 [_ [_ [_ [_ [H6 _]]]]]].
  split; assumption.
Defined.

(** The pointer 4100 has residue 4 modulo 16; the relocated block 8204 has
    residue 12. *)
Lemma realloc_without_offset_aligned_witness :
  aligned_at 8204 (4100 mod 16) 16
  /\ (8204 = 4100 \/ (8204 + 4100) mod 16 = 0)
  /\ (8204 mod 16 = 0 <-> 4100 mod 16 = 0).
Proof.
  apply (@realloc_without_offset_aligned mi_release_config bump bump_allocator
           (bump_world 8192 0 64) 1 4100 100 16 false 8204
           (snd (mi_heap_realloc_zero_aligned (cfg := mi_release_config)
                   (B := bump_allocator) (bump_world 8192 0 64)
                   1 4100 100 16 false))).
  - by_computation.
  - by_computation.
  - by_computation.
  - vm_compute. discriminate.
  - vm_compute. intros H. exfalso. apply H. reflexivity.
  - apply run_result. vm_compute. reflexivity.
  - by_computation.
Defined.

(** C9 fails on the code.  The block at 4100 is aligned at offset 12 for
    the alignment 16 (residue 4), as [mi_malloc_aligned_at] with that
    offset returns it.  Line 267 means to "use offset of previous
    allocation" but takes [p % alignment], which is 4, the negation of
    that offset.  [mi_heap_realloc_aligned] succeeds with a result of
    residue 12, not congruent to the old pointer; even a new size that
    fits the block relocates it; with the offset of the previous
    allocation given explicitly the block is reused. *)
Theorem realloc_without_offset_flips_residue :
  let w := bump_world 8192 0 64 in
  let r :=
    fst (mi_heap_realloc_aligned (cfg := mi_release_config)
           (B := bump_allocator) w 1 4100 100 16) in
  let r' :=
    fst (mi_heap_realloc_aligned (cfg := mi_release_config)
           (B := bump_allocator) w 1 4100 40 16) in
  (4100 + 12) mod 16 = 0
  /\ r = 8204 /\ r <> NULL /\ r mod 16 = 12 /\ 4100 mod 16 = 4
  /\ r mod 16 <> 4100 mod 16
  /\ r' = 8204
  /\ mi_heap_realloc_aligned_at (cfg := mi_release_config)
       (B := bump_allocator) w 1 4100 40 16 12
     = (4100, w).
Proof.
  intros w r r'.
  repeat split; try (vm_compute; reflexivity); vm_compute; discriminate.
Qed.

(** In a build without assertions an alignment of 0 reaches the unaligned
    resize. *)
Lemma small_alignment_realloc_delegates_witness :
  mi_heap_realloc_zero_aligned_at_asserted (cfg := mi_release_config)
    (B := bump_allocator) (bump_world 8192 0 64) 1 4100 100 0 4 true
  = Some (_mi_heap_realloc_zero (B := bump_allocator) (bump_world 8192 0 64)
            1 4100 100 true).
Proof.
  apply (@small_alignment_realloc_delegates mi_release_config bump
           bump_allocator (bump_world 8192 0 64) 1 4100 100 0 4 true).
  - by_computation.
  - vm_compute. reflexivity.
Defined.

(** C10 fails as stated: in a build with assertions a re-allocation with
    the alignment 0 is aborted at lines 234 and 265; it does not reach the
    unaligned resize. *)
Lemma small_alignment_realloc_counterexample :
  mi_heap_realloc_zero_aligned_at_asserted (cfg := mi_debug_config)
    (B := bump_allocator) (bump_world 8192 0 64) 1 4100 100 0 4 true
  = None
  /\ mi_heap_realloc_zero_aligned_asserted (cfg := mi_debug_config)
       (B := bump_allocator) (bump_world 8192 0 64) 1 4100 100 0 true
     = None
  /\ mi_heap_realloc_zero_aligned_at_asserted (cfg := mi_debug_config)
       (B := bump_allocator) (bump_world 8192 0 64) 1 4100 100 0 4 true
     <> Some (_mi_heap_realloc_zero (B := bump_allocator)
                (bump_world 8192 0 64) 1 4100 100 true).
Proof.
  split; [reflexivity|]. split; [reflexivity|]. discriminate.
Qed.

(** ** Further properties of the embedded code *)

Section FurtherProperties.

Context {cfg : mi_config} {A : Type} {B : base_allocator A}.

Local Abbreviation world := (world A).

Implicit Types (w : world) (heap size alignment offset p : Z) (zero : bool).

(** *** The arithmetic of carving *)

(** X1.  The comment of lines 23 and 118 holds for every power of two
    that fits a [size_t]: masking with [alignment - 1] is reduction modulo
    [alignment], also for a sum that wrapped around. *)
Theorem align_mask_is_modulo :
  forall x k,
    0 <= k < 64 ->
    let alignment := 2 ^ k in
    let align_mask := wrap (alignment - 1) in
    Z.land x align_mask = x mod alignment
    /\ Z.land (wrap x) align_mask = x mod alignment.
Proof.
  intros x k Hk alignment align_mask. unfold align_mask, alignment.
  split; [apply land_align_mask, Hk|].
  rewrite land_align_mask by exact Hk. apply wrap_mod_pow2. lia.
Qed.

Lemma mi_adjust_value (p k offset : Z) :
  0 <= k < 64 ->
  mi_adjust p (2 ^ k) offset
  = if (p + offset) mod 2 ^ k =? 0 then 0
    else 2 ^ k - (p + offset) mod 2 ^ k.
Proof.
  intros Hk. unfold mi_adjust.
  assert (Hpos : 0 < 2 ^ k) by (apply Z.pow_pos_nonneg; lia).
  assert (Hlt : 2 ^ k < modulus)
    by (unfold modulus; apply Z.pow_lt_mono_r; lia).
  rewrite land_align_mask, wrap_mod_pow2 by lia.
  pose proof (Z.mod_pos_bound (p + offset) (2 ^ k) Hpos) as Hm.
  destruct ((p + offset) mod 2 ^ k =? 0); [reflexivity|].
  apply wrap_small. unfold is_size_t. lia.
Qed.

(** X2.  Lines 59-62, for a power-of-two alignment: the adjustment is the
    least distance from [p] to an address aligned at [offset].  It is below
    the alignment (the assertion of line 61), the address it leads to is
    aligned, and no address in between is. *)
Theorem adjust_is_least :
  forall p k offset,
    0 <= k < 64 ->
    let alignment := 2 ^ k in
    0 <= mi_adjust p alignment offset < alignment
    /\ (p + mi_adjust p alignment offset + offset) mod alignment = 0
    /\ (forall d, 0 <= d < mi_adjust p alignment offset ->
                  (p + d + offset) mod alignment <> 0).
Proof.
  intros p k offset Hk alignment. unfold alignment.
  assert (Hpos : 0 < 2 ^ k) by (apply Z.pow_pos_nonneg; lia).
  split; [apply mi_adjust_bound, Hk|].
  rewrite (mi_adjust_value p k offset Hk).
  pose proof (Z.mod_pos_bound (p + offset) (2 ^ k) Hpos) as Hm.
  destruct (Z.eqb_spec ((p + offset) mod 2 ^ k) 0) as [E|NE].
  - split; [rewrite Z.add_0_r; exact E|]. intros d Hd. lia.
  - split.
    + replace (p + (2 ^ k - (p + offset) mod 2 ^ k) + offset)
        with ((p + offset) - (p + offset) mod 2 ^ k + 1 * 2 ^ k) by lia.
      rewrite Z.mod_add by lia.
      rewrite Zminus_mod_idemp_r, Z.sub_diag. apply Z.mod_0_l. lia.
    + intros d Hd.
      replace (p + d + offset) with ((p + offset) + d) by lia.
      rewrite <- Zplus_mod_idemp_l.
      rewrite Z.mod_small by lia. lia.
Qed.

(** X3.  Lines 53-62 and the assertion of line 67: over-allocating
    [size + alignment - 1] bytes is enough.  The sum does not wrap, the
    adjustment plus [size] fits the over-allocation, and for a block inside
    the address space the carved region lies inside the block. *)
Theorem carved_region_inside_block :
  forall p size k offset,
    0 <= k < 64 ->
    0 <= size <= PTRDIFF_MAX ->
    let alignment := 2 ^ k in
    let oversize := wrap (wrap (size + alignment) - 1) in
    let adjust := mi_adjust p alignment offset in
    oversize = size + alignment - 1
    /\ adjust + size <= oversize
    /\ (0 <= p -> p + oversize <= modulus -> 0 < size ->
        p <= wrap (p + adjust) /\ wrap (p + adjust) + size <= p + oversize).
Proof.
  intros p size k offset Hk Hsize alignment oversize adjust.
  unfold alignment in *.
  pose proof (mi_adjust_bound p k offset Hk) as Hadj. fold adjust in Hadj.
  assert (Hpos : 0 < 2 ^ k) by (apply Z.pow_pos_nonneg; lia).
  assert (Hle : 2 ^ k <= 2 ^ 63) by (apply Z.pow_le_mono_r; lia).
  assert (H63 : 2 * 2 ^ 63 = modulus) by reflexivity.
  unfold PTRDIFF_MAX in Hsize.
  assert (Hover : oversize = size + 2 ^ k - 1).
  { unfold oversize.
    rewrite (wrap_small (size + 2 ^ k)) by (unfold is_size_t; lia).
    apply wrap_small. unfold is_size_t. lia. }
  split; [exact Hover|]. split; [lia|].
  intros Hp Hend Hs.
  rewrite wrap_small by (unfold is_size_t; lia). lia.
Qed.

(** *** What carving does to the state *)

(** The calls of [mi_align_within] after the marking of the page, for any
    class of calls that contains the instrumentation and, when the block of
    a huge alignment is zeroed, [_mi_memzero]. *)
Lemma align_within_after_mark (P : event -> bool) w p oversize size alignment
    offset zero :
  (zero && (MI_ALIGNMENT_MAX cfg <? alignment) = true ->
   forall a n, P (EvMemzero a n) = true) ->
  (forall e, is_note e = true -> P e = true) ->
  let w1 := mi_mark_aligned w p (wrap (p + mi_adjust p alignment offset)) in
  alloc (snd (mi_align_within w p oversize size alignment offset zero))
  = alloc w1
  /\ adds P w1 (snd (mi_align_within w p oversize size alignment offset zero)).
Proof.
  intros Hzero Hnote. cbv zeta.
  unfold mi_align_within. cbv zeta. simpl snd.
  set (aligned_p := wrap (p + mi_adjust p alignment offset)).
  set (w1 := mi_mark_aligned w p aligned_p).
  set (w2 := if zero && (MI_ALIGNMENT_MAX cfg <? alignment)
             then if 0 <? mi_huge_zsize w1 p aligned_p
                  then _mi_memzero w1 aligned_p (mi_huge_zsize w1 p aligned_p)
                  else w1
             else w1).
  assert (H2 : alloc w2 = alloc w1 /\ adds P w1 w2).
  { unfold w2. destruct (zero && (MI_ALIGNMENT_MAX cfg <? alignment));
      [|split; [reflexivity|apply adds_refl]].
    destruct (0 <? mi_huge_zsize w1 p aligned_p);
      [|split; [reflexivity|apply adds_refl]].
    split; [reflexivity|]. eapply adds_step; [reflexivity|].
    apply Hzero. reflexivity. }
  destruct H2 as [Ha2 H2].
  destruct (negb (p =? aligned_p)).
  - destruct (track_free_size_frame w2 p oversize) as [_ [Ha3 H3]].
    destruct (track_malloc_frame (mi_track_free_size w2 p oversize)
                aligned_p size zero) as [_ [Ha4 H4]].
    split; [congruence|].
    eapply adds_trans; [exact H2|].
    apply (adds_weaken is_note); [exact Hnote|].
    eapply adds_trans; eassumption.
  - destruct (track_resize_frame w2 aligned_p oversize size) as [_ [Ha3 H3]].
    split; [congruence|].
    eapply adds_trans; [exact H2|].
    apply (adds_weaken is_note); [exact Hnote|exact H3].
Qed.

Lemma align_within_adds_gen (P : event -> bool) w p oversize size alignment
    offset zero :
  (forall page, P (EvSetHasAligned page true) = true) ->
  (zero && (MI_ALIGNMENT_MAX cfg <? alignment) = true ->
   forall a n, P (EvMemzero a n) = true) ->
  (forall e, is_note e = true -> P e = true) ->
  adds P w (snd (mi_align_within w p oversize size alignment offset zero)).
Proof.
  intros Hmark Hzero Hnote.
  destruct (align_within_after_mark P w p oversize size alignment offset zero
              Hzero Hnote) as [_ H2].
  eapply adds_trans; [|exact H2].
  unfold mi_mark_aligned.
  destruct (negb (wrap (p + mi_adjust p alignment offset) =? p)).
  - eapply adds_step; [reflexivity|apply Hmark].
  - apply adds_refl.
Qed.

Lemma adds_no_base_calls w w' :
  adds (fun e => negb (is_base_call e)) w w' ->
  base_calls (trace w') = base_calls (trace w).
Proof.
  intros [evs [Ht F]]. unfold base_calls. rewrite Ht, filter_app.
  replace (filter is_base_call evs) with (@nil event); [reflexivity|].
  symmetry. clear Ht. induction evs as [|e evs IH]; [reflexivity|].
  simpl in F. apply andb_prop in F as [Fe F]. simpl.
  apply negb_true_iff in Fe. rewrite Fe. apply IH, F.
Qed.

Lemma note_is_no_base_call e : is_note e = true -> negb (is_base_call e) = true.
Proof. unfold is_note. intros H. apply andb_prop in H as [H _]. exact H. Qed.

(** X4.  Lines 62-65: a block that is already aligned at [offset] is
    returned as it is, and the base allocator is not told anything; a block
    that is not is never returned as it is, and the only thing the base
    allocator is told is that the page of the block now holds an interior
    pointer. *)
Theorem page_marked_iff_adjusted :
  forall w p oversize size k offset zero,
    0 <= k < 64 ->
    is_size_t p ->
    let alignment := 2 ^ k in
    let r := mi_align_within w p oversize size alignment offset zero in
    ((p + offset) mod alignment = 0 ->
     fst r = p /\ alloc (snd r) = alloc w
     /\ base_calls (trace (snd r)) = base_calls (trace w))
    /\ ((p + offset) mod alignment <> 0 ->
        fst r <> p
        /\ base_calls (trace (snd r))
           = EvSetHasAligned (_mi_ptr_page w p) true :: base_calls (trace w)).
Proof.
  intros w p oversize size k offset zero Hk Hp alignment r.
  unfold alignment in *.
  destruct (align_within_after_mark (fun e => negb (is_base_call e))
              w p oversize size (2 ^ k) offset zero) as [Ha Ht];
    [reflexivity|apply note_is_no_base_call|].
  fold r in Ha, Ht. cbv zeta in Ha, Ht.
  apply adds_no_base_calls in Ht.
  assert (Hres : fst r = wrap (p + mi_adjust p (2 ^ k) offset)) by reflexivity.
  pose proof (mi_adjust_bound p k offset Hk) as Hadj.
  pose proof (mi_adjust_value p k offset Hk) as Hval.
  assert (Hlt : 2 ^ k < modulus)
    by (unfold modulus; apply Z.pow_lt_mono_r; lia).
  unfold is_size_t in Hp.
  split.
  - intros Hmod. rewrite Hmod in Hval. simpl in Hval.
    rewrite Hval, Z.add_0_r in *.
    rewrite (wrap_small p) in * by exact Hp.
    unfold mi_mark_aligned in Ha, Ht. rewrite Z.eqb_refl in Ha, Ht.
    simpl in Ha, Ht. repeat split; assumption.
  - intros Hmod.
    assert (Hpos : 0 < mi_adjust p (2 ^ k) offset).
    { rewrite Hval. destruct (Z.eqb_spec ((p + offset) mod 2 ^ k) 0); [contradiction|].
      pose proof (Z.mod_pos_bound (p + offset) (2 ^ k) ltac:(lia)). lia. }
    assert (Hne : wrap (p + mi_adjust p (2 ^ k) offset) <> p).
    { unfold wrap.
      destruct (Z_lt_le_dec (p + mi_adjust p (2 ^ k) offset) modulus).
      - rewrite Z.mod_small by lia. lia.
      - replace (p + mi_adjust p (2 ^ k) offset)
          with ((p + mi_adjust p (2 ^ k) offset - modulus) + 1 * modulus) by lia.
        rewrite Z.mod_add by (unfold modulus; lia).
        rewrite Z.mod_small by lia. lia. }
    split; [rewrite Hres; exact Hne|].
    unfold mi_mark_aligned in Ht.
    apply Z.eqb_neq in Hne. rewrite Hne in Ht. simpl in Ht. exact Ht.
Qed.

(** *** The calls an allocation makes, refined *)

Lemma alloc_event_note b e : is_note e = true -> alloc_event b e = true.
Proof. apply note_alloc_event. Qed.

Lemma fallback_adds_gen (P : event -> bool) w heap size alignment offset zero :
  (forall e, is_alloc_call e = true -> P e = true) ->
  (forall page, P (EvSetHasAligned page true) = true) ->
  (zero && (MI_ALIGNMENT_MAX cfg <? alignment) = true ->
   forall a n, P (EvMemzero a n) = true) ->
  (forall e, is_note e = true -> P e = true) ->
  adds P w
    (snd (mi_heap_malloc_zero_aligned_at_fallback w heap size alignment offset zero)).
Proof.
  intros Hcall Hmark Hzero Hnote.
  assert (Hcarve : forall w1 q oversize,
            adds P w1 (snd (mi_align_within w1 q oversize size alignment offset zero))).
  { intros w1 q oversize. apply align_within_adds_gen; assumption. }
  unfold mi_heap_malloc_zero_aligned_at_fallback.
  destruct (mi_natural_fit size alignment offset).
  - destruct (_mi_heap_malloc_zero w heap size zero) as [p w1] eqn:E.
    eapply base_call_adds; [exact E|]. apply Hcall. reflexivity.
  - destruct (MI_ALIGNMENT_MAX cfg <? alignment).
    + destruct (negb (offset =? 0)).
      { apply (adds_weaken is_note); [exact Hnote|apply error_message_frame]. }
      destruct (_mi_heap_malloc_zero_ex w heap (mi_huge_oversize size) false alignment)
        as [p w1] eqn:E.
      assert (H1 : adds P w w1)
        by (eapply base_call_adds; [exact E|]; apply Hcall; reflexivity).
      destruct (p =? NULL); [exact H1|].
      eapply adds_trans; [exact H1|apply Hcarve].
    + destruct (_mi_heap_malloc_zero w heap (wrap (wrap (size + alignment) - 1)) zero)
        as [p w1] eqn:E.
      assert (H1 : adds P w w1)
        by (eapply base_call_adds; [exact E|]; apply Hcall; reflexivity).
      destruct (p =? NULL); [exact H1|].
      eapply adds_trans; [exact H1|apply Hcarve].
Qed.

Lemma malloc_zero_aligned_at_adds_gen (P : event -> bool) w heap size alignment
    offset zero :
  (forall e, is_alloc_call e = true -> P e = true) ->
  (forall page, P (EvSetHasAligned page true) = true) ->
  (zero && (MI_ALIGNMENT_MAX cfg <? alignment) = true ->
   forall a n, P (EvMemzero a n) = true) ->
  (forall e, is_note e = true -> P e = true) ->
  adds P w
    (snd (mi_heap_malloc_zero_aligned_at w heap size alignment offset zero)).
Proof.
  intros Hcall Hmark Hzero Hnote.
  unfold mi_heap_malloc_zero_aligned_at.
  destruct ((alignment =? 0) || negb (_mi_is_power_of_two alignment)).
  { apply (adds_weaken is_note); [exact Hnote|apply error_message_frame]. }
  destruct (PTRDIFF_MAX <? size).
  { apply (adds_weaken is_note); [exact Hnote|apply error_message_frame]. }
  destruct (mi_probe_hits w heap size alignment offset).
  - unfold mi_probe_take. cbv zeta.
    destruct (_mi_page_malloc (mi_heap_stat_increase w heap size) heap
                (_mi_heap_get_free_small_page w heap (wrap (size + MI_PADDING_SIZE cfg)))
                (wrap (size + MI_PADDING_SIZE cfg)) zero) as [p w2] eqn:E.
    simpl snd.
    apply (adds_trans _ _ (mi_heap_stat_increase w heap size)).
    { apply (adds_weaken is_note); [exact Hnote|apply stat_increase_frame]. }
    apply (adds_trans _ _ w2).
    { eapply base_call_adds; [exact E|]. apply Hcall. reflexivity. }
    apply (adds_weaken is_note); [exact Hnote|apply track_malloc_frame].
  - apply fallback_adds_gen; assumption.
Qed.

Lemma malloc_aligned_adds_gen (P : event -> bool) w heap size alignment :
  (forall e, is_alloc_call e = true -> P e = true) ->
  (forall page, P (EvSetHasAligned page true) = true) ->
  (forall e, is_note e = true -> P e = true) ->
  adds P w (snd (mi_heap_malloc_aligned w heap size alignment)).
Proof.
  intros Hcall Hmark Hnote.
  assert (Hslow : adds P w (snd (mi_heap_malloc_aligned_at w heap size alignment 0))).
  { apply malloc_zero_aligned_at_adds_gen; try assumption. discriminate. }
  assert (Hfast : adds P w (snd (mi_heap_malloc_small w heap size))).
  { destruct (mi_heap_malloc_small w heap size) as [p w1] eqn:E.
    eapply base_call_adds; [exact E|]. apply Hcall. reflexivity. }
  unfold mi_heap_malloc_aligned.
  destruct (negb (MI_PADDING cfg)).
  - destruct (negb (_mi_is_power_of_two alignment)); [apply adds_refl|].
    destruct (_mi_is_power_of_two size && (alignment <=? size)
              && (size <=? MI_SMALL_SIZE_MAX cfg)); assumption.
  - destruct (((alignment =? sizeof_voidp)
               || (alignment =? MI_MAX_ALIGN_SIZE cfg)
                  && (MI_MAX_ALIGN_SIZE cfg / 2 <? size))
              && (size <=? MI_SMALL_SIZE_MAX cfg)); assumption.
Qed.

(** X5.  No allocation entry point ever frees a block, and the only write
    to memory this file performs while allocating is the zeroing of lines
    72-79, which needs both a zero-initialising request and an alignment
    above [MI_ALIGNMENT_MAX].  In every other case the zero-initialisation
    is left to the base allocator. *)
Theorem allocation_never_frees :
  forall w heap size alignment offset zero,
    adds (alloc_event (zero && (MI_ALIGNMENT_MAX cfg <? alignment))) w
      (snd (mi_heap_malloc_zero_aligned_at w heap size alignment offset zero))
    /\ adds is_quiet w (snd (mi_heap_malloc_aligned w heap size alignment)).
Proof.
  intros w heap size alignment offset zero. split.
  - apply malloc_zero_aligned_at_adds_gen.
    + intros e He. destruct e; try discriminate;
        unfold alloc_event; simpl; apply orb_true_r.
    + intros page. unfold alloc_event. simpl. apply orb_true_r.
    + intros -> a n. reflexivity.
    + intros e He. apply alloc_event_note, He.
  - apply malloc_aligned_adds_gen.
    + intros e He. destruct e; try discriminate; reflexivity.
    + reflexivity.
    + intros e He. apply (alloc_event_note false), He.
Qed.

Lemma alloc_calls_app (t1 t2 : list event) :
  alloc_calls (t1 ++ t2) = (alloc_calls t1 + alloc_calls t2)%nat.
Proof. unfold alloc_calls. rewrite filter_app, length_app. reflexivity. Qed.

Lemma adds_no_alloc_calls w w' :
  adds (fun e => negb (is_alloc_call e)) w w' ->
  exists evs, trace w' = evs ++ trace w /\ alloc_calls evs = 0%nat.
Proof.
  intros [evs [Ht F]]. exists evs. split; [exact Ht|].
  unfold alloc_calls. clear Ht. induction evs as [|e evs IH]; [reflexivity|].
  simpl in F. apply andb_prop in F as [Fe F]. simpl.
  apply negb_true_iff in Fe. rewrite Fe. apply IH, F.
Qed.

Lemma no_call_path w w' :
  adds (fun e => negb (is_alloc_call e)) w w' ->
  exists evs, trace w' = evs ++ trace w /\ (alloc_calls evs <= 1)%nat.
Proof.
  intros H. apply adds_no_alloc_calls in H as [evs [Ht Hc]].
  exists evs. split; [exact Ht|lia].
Qed.

Lemma one_call_path w w0 w1 w2 e :
  adds (fun e => negb (is_alloc_call e)) w w0 ->
  trace w1 = e :: trace w0 ->
  adds (fun e => negb (is_alloc_call e)) w1 w2 ->
  exists evs, trace w2 = evs ++ trace w /\ (alloc_calls evs <= 1)%nat.
Proof.
  intros H0 H1 H2.
  apply adds_no_alloc_calls in H0 as [e0 [Ht0 Hc0]].
  apply adds_no_alloc_calls in H2 as [e2 [Ht2 Hc2]].
  exists (e2 ++ e :: e0). split.
  - rewrite Ht2, H1, Ht0, <- app_assoc. reflexivity.
  - rewrite alloc_calls_app, Hc2.
    change (e :: e0) with ([e] ++ e0). rewrite alloc_calls_app, Hc0.
    unfold alloc_calls. simpl. destruct (is_alloc_call e); simpl; lia.
Qed.

Lemma note_is_no_alloc_call e :
  is_note e = true -> negb (is_alloc_call e) = true.
Proof. destruct e; simpl; intros H; try reflexivity; discriminate. Qed.

Lemma fallback_calls_once w heap size alignment offset zero :
  exists evs,
    trace (snd (mi_heap_malloc_zero_aligned_at_fallback w heap size alignment
                  offset zero)) = evs ++ trace w
    /\ (alloc_calls evs <= 1)%nat.
Proof.
  assert (Hcarve : forall w1 q oversize,
            adds (fun e => negb (is_alloc_call e)) w1
              (snd (mi_align_within w1 q oversize size alignment offset zero))).
  { intros w1 q oversize. apply align_within_adds_gen;
      [reflexivity|reflexivity|apply note_is_no_alloc_call]. }
  unfold mi_heap_malloc_zero_aligned_at_fallback.
  destruct (mi_natural_fit size alignment offset).
  - destruct (_mi_heap_malloc_zero w heap size zero) as [p w1] eqn:E.
    eapply one_call_path;
      [apply adds_refl|exact (base_call_trace _ _ _ _ _ E)|apply adds_refl].
  - destruct (MI_ALIGNMENT_MAX cfg <? alignment).
    + destruct (negb (offset =? 0)).
      { apply no_call_path.
        apply (adds_weaken is_note);
          [apply note_is_no_alloc_call|apply error_message_frame]. }
      destruct (_mi_heap_malloc_zero_ex w heap (mi_huge_oversize size) false alignment)
        as [p w1] eqn:E.
      destruct (p =? NULL).
      * eapply one_call_path;
          [apply adds_refl|exact (base_call_trace _ _ _ _ _ E)|apply adds_refl].
      * eapply one_call_path;
          [apply adds_refl|exact (base_call_trace _ _ _ _ _ E)|apply Hcarve].
    + destruct (_mi_heap_malloc_zero w heap (wrap (wrap (size + alignment) - 1)) zero)
        as [p w1] eqn:E.
      destruct (p =? NULL).
      * eapply one_call_path;
          [apply adds_refl|exact (base_call_trace _ _ _ _ _ E)|apply adds_refl].
      * eapply one_call_path;
          [apply adds_refl|exact (base_call_trace _ _ _ _ _ E)|apply Hcarve].
Qed.

Lemma malloc_zero_aligned_at_calls_once w heap size alignment offset zero :
  exists evs,
    trace (snd (mi_heap_malloc_zero_aligned_at w heap size alignment offset zero))
    = evs ++ trace w
    /\ (alloc_calls evs <= 1)%nat.
Proof.
  unfold mi_heap_malloc_zero_aligned_at.
  destruct ((alignment =? 0) || negb (_mi_is_power_of_two alignment)).
  { apply no_call_path.
    apply (adds_weaken is_note);
      [apply note_is_no_alloc_call|apply error_message_frame]. }
  destruct (PTRDIFF_MAX <? size).
  { apply no_call_path.
    apply (adds_weaken is_note);
      [apply note_is_no_alloc_call|apply error_message_frame]. }
  destruct (mi_probe_hits w heap size alignment offset).
  - unfold mi_probe_take. cbv zeta.
    destruct (_mi_page_malloc (mi_heap_stat_increase w heap size) heap
                (_mi_heap_get_free_small_page w heap (wrap (size + MI_PADDING_SIZE cfg)))
                (wrap (size + MI_PADDING_SIZE cfg)) zero) as [p w2] eqn:E.
    simpl snd.
    eapply one_call_path.
    + apply (adds_weaken is_note);
        [apply note_is_no_alloc_call|apply stat_increase_frame].
    + exact (base_call_trace _ _ _ _ _ E).
    + apply (adds_weaken is_note);
        [apply note_is_no_alloc_call|apply track_malloc_frame].
  - apply fallback_calls_once.
Qed.

(** X6.  An aligned allocation asks the base allocator for memory at most
    once: whichever path is taken there is one allocation call or none, and
    a failed one is not retried with another strategy. *)
Theorem allocation_calls_base_at_most_once :
  forall w heap size alignment offset zero,
    (exists evs,
        trace (snd (mi_heap_malloc_zero_aligned_at w heap size alignment
                      offset zero)) = evs ++ trace w
        /\ (alloc_calls evs <= 1)%nat)
    /\ (exists evs,
           trace (snd (mi_heap_malloc_aligned w heap size alignment))
           = evs ++ trace w
           /\ (alloc_calls evs <= 1)%nat).
Proof.
  intros w heap size alignment offset zero.
  split; [apply malloc_zero_aligned_at_calls_once|].
  assert (Hfast : exists evs,
             trace (snd (mi_heap_malloc_small w heap size)) = evs ++ trace w
             /\ (alloc_calls evs <= 1)%nat).
  { destruct (mi_heap_malloc_small w heap size) as [p w1] eqn:E.
    eapply one_call_path;
      [apply adds_refl|exact (base_call_trace _ _ _ _ _ E)|apply adds_refl]. }
  unfold mi_heap_malloc_aligned.
  destruct (negb (MI_PADDING cfg)).
  - destruct (negb (_mi_is_power_of_two alignment));
      [apply no_call_path, adds_refl|].
    destruct (_mi_is_power_of_two size && (alignment <=? size)
              && (size <=? MI_SMALL_SIZE_MAX cfg));
      [exact Hfast|apply malloc_zero_aligned_at_calls_once].
  - destruct (((alignment =? sizeof_voidp)
               || (alignment =? MI_MAX_ALIGN_SIZE cfg)
                  && (MI_MAX_ALIGN_SIZE cfg / 2 <? size))
              && (size <=? MI_SMALL_SIZE_MAX cfg));
      [exact Hfast|apply malloc_zero_aligned_at_calls_once].
Qed.

(** *** The zeroing of the huge-alignment path *)

Lemma to_ptrdiff_wrap (x : Z) :
  - 2 ^ 63 <= x < 2 ^ 63 -> to_ptrdiff (wrap x) = x.
Proof.
  intros Hx. assert (H63 : 2 * 2 ^ 63 = modulus) by reflexivity.
  assert (Hpos : 0 < 2 ^ 63) by reflexivity.
  unfold to_ptrdiff, wrap.
  destruct (Z_lt_le_dec x 0).
  - assert (Hm : x mod modulus = x + modulus).
    { replace x with ((x + modulus) + (-1) * modulus) at 1 by lia.
      rewrite Z.mod_add by (unfold modulus; lia).
      apply Z.mod_small. lia. }
    rewrite Hm.
    destruct (Z.ltb_spec (x + modulus) (2 ^ 63)); lia.
  - rewrite Z.mod_small by lia.
    destruct (Z.ltb_spec x (2 ^ 63)); lia.
Qed.

(** X7.  Lines 72-79 never write outside the block: whatever the request,
    every byte below the block and every byte from its usable end (less the
    padding) on is left as the base allocator handed it over. *)
Theorem huge_zeroing_stays_inside_block :
  forall w p oversize size k offset zero a,
    0 <= k < 64 ->
    let alignment := 2 ^ k in
    0 <= p ->
    p + mi_adjust p alignment offset < modulus ->
    0 <= MI_PADDING_SIZE cfg ->
    0 <= MI_MAX_ALIGN_SIZE cfg ->
    alignment + MI_PADDING_SIZE cfg + MI_MAX_ALIGN_SIZE cfg <= 2 ^ 63 ->
    let w1 := mi_mark_aligned w p (wrap (p + mi_adjust p alignment offset)) in
    let usable := mi_page_usable_block_size w1 (_mi_ptr_page w1 p) in
    0 <= usable < 2 ^ 63 ->
    a < p \/ p + usable - MI_PADDING_SIZE cfg <= a ->
    mem (snd (mi_align_within w p oversize size alignment offset zero)) a
    = mem w a.
Proof.
  intros w p oversize size k offset zero a Hk alignment Hp Hend Hpad
         Hmaxal Hsum w1 usable Huse Ha.
  unfold alignment in *.
  pose proof (mi_adjust_bound p k offset Hk) as Hadj.
  rewrite align_within_mem. cbv zeta. fold w1.
  destruct (zero && (MI_ALIGNMENT_MAX cfg <? 2 ^ k)); [|reflexivity].
  destruct (0 <? mi_huge_zsize w1 p (wrap (p + mi_adjust p (2 ^ k) offset)));
    [|reflexivity].
  apply fill_outside.
  unfold mi_huge_zsize. fold usable.
  rewrite (wrap_small (p + mi_adjust p (2 ^ k) offset))
    by (unfold is_size_t; lia).
  replace (p + mi_adjust p (2 ^ k) offset - p)
    with (mi_adjust p (2 ^ k) offset) by lia.
  rewrite (to_ptrdiff_wrap (mi_adjust p (2 ^ k) offset)) by lia.
  rewrite (to_ptrdiff_wrap
             (usable - mi_adjust p (2 ^ k) offset - MI_PADDING_SIZE cfg)) by lia.
  destruct (MI_PADDING cfg).
  - rewrite to_ptrdiff_wrap by lia. lia.
  - lia.
Qed.

(** *** Re-allocation: edge cases and contents *)

(** X8.  Lines 236 and 267: re-allocating the null pointer with an
    alignment above [sizeof(uintptr_t)] is a fresh aligned allocation; when
    no offset is given the offset derived from the null pointer is 0. *)
Theorem realloc_null_is_allocation :
  forall w heap newsize alignment offset zero,
    sizeof_uintptr_t < alignment ->
    mi_heap_realloc_zero_aligned_at w heap NULL newsize alignment offset zero
    = mi_heap_malloc_zero_aligned_at w heap newsize alignment offset zero
    /\ mi_heap_realloc_zero_aligned w heap NULL newsize alignment zero
       = mi_heap_malloc_zero_aligned_at w heap newsize alignment 0 zero
    /\ mi_realloc_aligned w NULL newsize alignment
       = mi_malloc_aligned_at w newsize alignment 0
    /\ mi_rezalloc_aligned w NULL newsize alignment
       = mi_zalloc_aligned w newsize alignment.
Proof.
  intros w heap newsize alignment offset zero Hal.
  apply Z.leb_gt in Hal.
  unfold mi_realloc_aligned, mi_rezalloc_aligned, mi_heap_realloc_aligned,
    mi_heap_rezalloc_aligned, mi_malloc_aligned_at, mi_zalloc_aligned,
    mi_heap_zalloc_aligned, mi_heap_zalloc_aligned_at,
    mi_heap_malloc_aligned_at, mi_heap_realloc_zero_aligned,
    mi_heap_realloc_zero_aligned_at.
  rewrite Hal. unfold NULL. rewrite Zmod_0_l. simpl. repeat split.
Qed.

(** X9.  Line 257: when the old block does not overlap the new one, the
    new block holds the first [min size newsize] bytes of the old one at
    the moment the old one is freed, whether or not the tail was zeroed in
    between. *)
Theorem realloc_copies_old_contents :
  forall w heap p newsize alignment offset zero newp w1,
    sizeof_uintptr_t < alignment ->
    p <> NULL ->
    mi_realloc_fits (mi_usable_size w p) p newsize alignment offset = false ->
    mi_heap_malloc_aligned_at w heap newsize alignment offset = (newp, w1) ->
    newp <> NULL ->
    let n := Z.min (mi_usable_size w p) newsize in
    p + n <= newp \/ newp + newsize <= p ->
    exists w3,
      mi_heap_realloc_zero_aligned_at w heap p newsize alignment offset zero
      = (newp, mi_free w3 p)
      /\ forall i, 0 <= i < n -> mem w3 (newp + i) = mem w1 (p + i).
Proof.
  intros w heap p newsize alignment offset zero newp w1 Hal Hp Hfits Halloc
         Hnewp n Hdisj.
  destruct (realloc_relocate_spec w heap p (mi_usable_size w p) newsize
              alignment offset zero newp w1 Halloc) as [_ Hok].
  destruct (Hok Hnewp) as [w2 [Hrel [_ Hmem]]].
  exists (_mi_memcpy_aligned w2 newp p n). split.
  - unfold mi_heap_realloc_zero_aligned_at.
    apply Z.leb_gt in Hal. rewrite Hal.
    apply Z.eqb_neq in Hp. rewrite Hp, Hfits. exact Hrel.
  - intros i Hi. rewrite memcpy_copies by exact Hi.
    apply Hmem. unfold n in *. lia.
Qed.

(** X10.  Lines 245-257: when a zero-initialising re-allocation grows a
    block into a page that is not known to be zero, every byte of the new
    block beyond the old size reads as zero when the old block is freed. *)
Theorem rezalloc_zeroes_new_tail :
  forall w heap p newsize alignment offset newp w1,
    sizeof_uintptr_t < alignment ->
    p <> NULL ->
    mi_realloc_fits (mi_usable_size w p) p newsize alignment offset = false ->
    mi_heap_malloc_aligned_at w heap newsize alignment offset = (newp, w1) ->
    newp <> NULL ->
    0 <= mi_usable_size w p < newsize ->
    page_is_zero w1 (_mi_ptr_page w1 newp) = false ->
    exists w3,
      mi_heap_realloc_zero_aligned_at w heap p newsize alignment offset true
      = (newp, mi_free w3 p)
      /\ forall i, mi_usable_size w p <= i < newsize ->
                   mem w3 (newp + i) = 0.
Proof.
  intros w heap p newsize alignment offset newp w1 Hal Hp Hfits Halloc Hnewp
         Hgrow Hdirty.
  unfold mi_heap_realloc_zero_aligned_at.
  apply Z.leb_gt in Hal. rewrite Hal.
  apply Z.eqb_neq in Hp. rewrite Hp, Hfits.
  unfold mi_realloc_relocate. rewrite Halloc.
  apply Z.eqb_neq in Hnewp. rewrite Hnewp. simpl negb. cbv iota.
  replace (mi_usable_size w p <? newsize) with true
    by (symmetry; apply Z.ltb_lt; lia).
  simpl andb. cbv iota. rewrite Hdirty.
  eexists. split; [reflexivity|].
  intros i Hi. simpl. rewrite copy_outside by lia.
  apply fill_inside. unfold sizeof_intptr_t.
  destruct (Z.leb_spec 8 (mi_usable_size w p)); lia.
Qed.



(** *** The entry point without an offset, continued *)


(** X13.  Lines 97-117 guard every allocation entry point that takes an
    offset, and the zero-initialising and counted ones built on them.  In
    a call that gets past the assertion of line 97 (a build without
    assertions, or a positive alignment; a build with assertions aborts at
    the alignment 0), the primitive runs as embedded, and an alignment
    that is 0 or not a power of two, or a size above [PTRDIFF_MAX], yields
    [NULL] with memory and the base allocator untouched.  For the counted
    entry points this holds for an invalid alignment whatever the count
    and the element size. *)
Theorem offset_entry_points_reject :
  forall w heap count size alignment offset,
    mi_assert_aborts (0 <? alignment) = false ->
    alignment = 0 \/ _mi_is_power_of_two alignment = false
    \/ PTRDIFF_MAX < size ->
    let rejected (r : Z * world) := fst r = NULL /\ untouched w (snd r) in
    (forall h sz off zero,
        mi_heap_malloc_zero_aligned_at_asserted w h sz alignment off zero
        = Some (mi_heap_malloc_zero_aligned_at w h sz alignment off zero))
    /\ rejected (mi_heap_malloc_aligned_at w heap size alignment offset)
    /\ rejected (mi_heap_zalloc_aligned_at w heap size alignment offset)
    /\ rejected (mi_heap_zalloc_aligned w heap size alignment)
    /\ rejected (mi_malloc_aligned_at w size alignment offset)
    /\ rejected (mi_zalloc_aligned_at w size alignment offset)
    /\ rejected (mi_zalloc_aligned w size alignment)
    /\ (alignment = 0 \/ _mi_is_power_of_two alignment = false ->
        rejected (mi_heap_calloc_aligned_at w heap count size alignment offset)
        /\ rejected (mi_heap_calloc_aligned w heap count size alignment)
        /\ rejected (mi_calloc_aligned_at w count size alignment offset)
        /\ rejected (mi_calloc_aligned w count size alignment)).
Proof.
  intros w heap count size alignment offset Hpass Hbad rejected.
  split.
  { intros h sz off zero. apply malloc_zero_aligned_at_asserted_passes, Hpass. }
  assert (Hprim : forall h sz off zero,
            alignment = 0 \/ _mi_is_power_of_two alignment = false
            \/ PTRDIFF_MAX < sz ->
            rejected (mi_heap_malloc_zero_aligned_at w h sz alignment off zero)).
  { intros h sz off zero H. apply malloc_zero_aligned_at_rejects_untouched, H. }
  assert (Hcount : forall h off,
            alignment = 0 \/ _mi_is_power_of_two alignment = false ->
            rejected (mi_heap_calloc_aligned_at w h count size alignment off)).
  { intros h off H. unfold mi_heap_calloc_aligned_at.
    destruct (mi_count_size_overflow count size) as [overflow total].
    destruct overflow.
    - split; [reflexivity|]. unfold untouched. repeat split.
    - apply Hprim. tauto. }
  unfold mi_malloc_aligned_at, mi_zalloc_aligned_at, mi_zalloc_aligned,
    mi_heap_zalloc_aligned, mi_heap_zalloc_aligned_at, mi_heap_malloc_aligned_at,
    mi_calloc_aligned_at, mi_calloc_aligned, mi_heap_calloc_aligned.
  repeat split; try (apply Hprim; exact Hbad);
    intros; apply Hcount; assumption.
Qed.

(** X14.  With padding compiled in, [mi_heap_malloc_aligned] and
    [mi_malloc_aligned] reject what the primitive rejects, in a call that
    gets past the assertion of line 97 (a build without assertions, or a
    positive alignment; a build with assertions aborts at the alignment
    0): the fast path of lines 157-158 is only taken for the alignments
    [sizeof_voidp] and [MI_MAX_ALIGN_SIZE] and for small sizes. *)
Theorem malloc_aligned_with_padding_rejects :
  forall w heap size alignment,
    MI_PADDING cfg = true ->
    _mi_is_power_of_two (MI_MAX_ALIGN_SIZE cfg) = true ->
    MI_MAX_ALIGN_SIZE cfg <> 0 ->
    MI_SMALL_SIZE_MAX cfg <= PTRDIFF_MAX ->
    mi_assert_aborts (0 <? alignment) = false ->
    alignment = 0 \/ _mi_is_power_of_two alignment = false
    \/ PTRDIFF_MAX < size ->
    mi_heap_malloc_aligned_asserted w heap size alignment
    = Some (mi_heap_malloc_aligned w heap size alignment)
    /\ (fst (mi_heap_malloc_aligned w heap size alignment) = NULL
        /\ untouched w (snd (mi_heap_malloc_aligned w heap size alignment)))
    /\ (fst (mi_malloc_aligned w size alignment) = NULL
        /\ untouched w (snd (mi_malloc_aligned w size alignment))).
Proof.
  intros w heap size alignment Hpad Hmax Hmax0 Hsmall Hpass Hbad.
  split; [apply malloc_aligned_asserted_passes, Hpass|].
  split; [|unfold mi_malloc_aligned];
    apply malloc_aligned_padding_rejects; assumption.
Qed.

(** X15.  Without padding, [mi_heap_malloc_aligned] and
    [mi_malloc_aligned] reject an alignment that [_mi_is_power_of_two]
    refuses (line 153) and a size above [PTRDIFF_MAX], which is too large
    for the fast path of line 154 and is refused by the primitive, in a
    call that gets past the assertion of line 97 (a build without
    assertions, or a positive alignment; a build with assertions aborts
    at an oversized request with the alignment 0). *)
Theorem malloc_aligned_without_padding_rejects :
  forall w heap size alignment,
    MI_PADDING cfg = false ->
    MI_SMALL_SIZE_MAX cfg <= PTRDIFF_MAX ->
    mi_assert_aborts (0 <? alignment) = false ->
    _mi_is_power_of_two alignment = false \/ PTRDIFF_MAX < size ->
    mi_heap_malloc_aligned_asserted w heap size alignment
    = Some (mi_heap_malloc_aligned w heap size alignment)
    /\ (fst (mi_heap_malloc_aligned w heap size alignment) = NULL
        /\ untouched w (snd (mi_heap_malloc_aligned w heap size alignment)))
    /\ (fst (mi_malloc_aligned w size alignment) = NULL
        /\ untouched w (snd (mi_malloc_aligned w size alignment))).
Proof.
  intros w heap size alignment Hpad Hsmall Hpass Hbad.
  split; [apply malloc_aligned_asserted_passes, Hpass|].
  split; [|unfold mi_malloc_aligned];
    apply malloc_aligned_nopadding_rejects; assumption.
Qed.

(** *** What a re-allocation frees *)

Lemma not_free_frees_only p e :
  negb (is_free_call e) = true -> frees_only p e = true.
Proof. destruct e; simpl; intros H; try reflexivity; discriminate. Qed.

Lemma alloc_event_frees_only p b e :
  alloc_event b e = true -> frees_only p e = true.
Proof.
  unfold alloc_event. intros H. apply andb_prop in H as [H _].
  apply not_free_frees_only, H.
Qed.

Lemma realloc_zero_aligned_at_frees_only w heap p newsize alignment offset zero :
  adds (frees_only p) w
    (snd (mi_heap_realloc_zero_aligned_at w heap p newsize alignment offset zero)).
Proof.
  unfold mi_heap_realloc_zero_aligned_at.
  destruct (alignment <=? sizeof_uintptr_t).
  { destruct (_mi_heap_realloc_zero w heap p newsize zero) as [r w1] eqn:E.
    eapply base_call_adds; [exact E|reflexivity]. }
  destruct (p =? NULL).
  { apply (adds_weaken (alloc_event zero));
      [apply alloc_event_frees_only|apply malloc_zero_aligned_at_adds]. }
  destruct (mi_realloc_fits (mi_usable_size w p) p newsize alignment offset);
    [apply adds_refl|].
  destruct (mi_heap_malloc_aligned_at w heap newsize alignment offset)
    as [newp w1] eqn:Ealloc.
  pose proof (malloc_aligned_at_quiet w heap newsize alignment offset) as Hq.
  rewrite Ealloc in Hq. simpl in Hq.
  assert (Hq' : adds (frees_only p) w w1).
  { apply (adds_weaken is_quiet); [|exact Hq].
    intros e He. apply (alloc_event_frees_only p false), He. }
  destruct (realloc_relocate_spec w heap p (mi_usable_size w p) newsize
              alignment offset zero newp w1 Ealloc) as [Hfail Hok].
  destruct (Z.eq_dec newp NULL) as [En|En].
  - rewrite (Hfail En). exact Hq'.
  - destruct (Hok En) as [w2 [Hrel [Hadd _]]]. rewrite Hrel. simpl snd.
    apply (adds_trans _ _ w1); [exact Hq'|].
    apply (adds_trans _ _ w2).
    { apply (adds_weaken (fun e => negb (is_free_call e)));
        [apply not_free_frees_only|exact Hadd]. }
    set (w3 := _mi_memcpy_aligned w2 newp p (Z.min (mi_usable_size w p) newsize)).
    apply (adds_trans _ _ w3).
    + apply (adds_step _ w2 w3
               (EvMemcpy newp p (Z.min (mi_usable_size w p) newsize)));
        reflexivity.
    + apply (adds_step _ w3 (mi_free w3 p) (EvFree p));
        [apply mi_free_trace|simpl; apply Z.eqb_refl].
Qed.

(** X17.  Line 258 is the only free in the file: whatever the arguments, a
    re-allocation never frees a block other than the one it was given. *)
Theorem realloc_frees_only_its_argument :
  forall w heap p newsize alignment offset zero,
    adds (frees_only p) w
      (snd (mi_heap_realloc_zero_aligned_at w heap p newsize alignment offset
              zero))
    /\ adds (frees_only p) w
         (snd (mi_heap_realloc_zero_aligned w heap p newsize alignment zero)).
Proof.
  intros w heap p newsize alignment offset zero.
  split; [apply realloc_zero_aligned_at_frees_only|].
  unfold mi_heap_realloc_zero_aligned.
  destruct (alignment <=? sizeof_uintptr_t).
  - destruct (_mi_heap_realloc_zero w heap p newsize zero) as [r w1] eqn:E.
    eapply base_call_adds; [exact E|reflexivity].
  - apply realloc_zero_aligned_at_frees_only.
Qed.

End FurtherProperties.

(** ** Concrete runs of the further properties *)

Lemma align_mask_is_modulo_witness :
  Z.land 4104 (wrap (2 ^ 6 - 1)) = 4104 mod 2 ^ 6
  /\ Z.land (wrap 4104) (wrap (2 ^ 6 - 1)) = 4104 mod 2 ^ 6.
Proof.
  apply (align_mask_is_modulo 4104 6). by_computation.
Defined.

Lemma adjust_is_least_witness :
  0 <= mi_adjust 4104 (2 ^ 6) 0 < 2 ^ 6
  /\ (4104 + mi_adjust 4104 (2 ^ 6) 0 + 0) mod 2 ^ 6 = 0
  /\ (forall d, 0 <= d < mi_adjust 4104 (2 ^ 6) 0 ->
                 (4104 + d + 0) mod 2 ^ 6 <> 0).
Proof.
  apply (adjust_is_least 4104 6 0). by_computation.
Defined.

Lemma carved_region_inside_block_witness :
  wrap (wrap (100 + 2 ^ 6) - 1) = 100 + 2 ^ 6 - 1
  /\ mi_adjust 4104 (2 ^ 6) 0 + 100 <= wrap (wrap (100 + 2 ^ 6) - 1).
Proof.
  pose proof (carved_region_inside_block 4104 100 6 0
                ltac:(by_computation) ltac:(by_computation)) as H.
  cbv zeta in H. destruct H as [H1 [H2 _]]. split; assumption.
Defined.

(** A block at 4104 is 8 bytes off for an alignment of 64: the page is
    marked. *)
Lemma page_marked_iff_adjusted_witness :
  let w := bump_world 8192 0 256 in
  let r :=
    mi_align_within (cfg := mi_release_config) (B := bump_allocator)
      w 4104 163 100 (2 ^ 6) 0 false in
  fst r <> 4104
  /\ base_calls (trace (snd r))
     = EvSetHasAligned (_mi_ptr_page (B := bump_allocator) w 4104) true
       :: base_calls (trace w).
Proof.
  intros w r.
  pose proof (@page_marked_iff_adjusted mi_release_config bump bump_allocator
                w 4104 163 100 6 0 false
                ltac:(by_computation) ltac:(by_computation)) as H.
  cbv zeta in H. destruct H as [_ H]. apply H. by_computation.
Defined.

(** The byte just below a huge-aligned block keeps its contents. *)
Lemma huge_zeroing_stays_inside_block_witness :
  let w := bump_world 0 0 (33488896 + 2024) in
  mem (snd (mi_align_within (cfg := mi_debug_config) (B := bump_allocator)
              w 33619968 2000 2000 (2 ^ 25) 0 true)) 33619967
  = mem w 33619967.
Proof.
  intros w.
  pose proof (@huge_zeroing_stays_inside_block mi_debug_config bump
                bump_allocator w 33619968 2000 2000 25 0 true 33619967
                ltac:(by_computation)) as H.
  cbv zeta in H.
  specialize (H ltac:(by_computation) ltac:(by_computation)
                ltac:(by_computation) ltac:(by_computation)
                ltac:(by_computation)).
  cbv zeta in H. apply H.
  - by_computation.
  - left. by_computation.
Defined.

Lemma realloc_null_is_allocation_witness :
  mi_heap_realloc_zero_aligned_at (cfg := mi_release_config)
    (B := bump_allocator) (bump_world 8192 0 64) 1 NULL 100 16 4 true
  = mi_heap_malloc_zero_aligned_at (cfg := mi_release_config)
      (B := bump_allocator) (bump_world 8192 0 64) 1 100 16 4 true.
Proof.
  apply (@realloc_null_is_allocation mi_release_config bump bump_allocator
           (bump_world 8192 0 64) 1 100 16 4 true).
  by_computation.
Defined.

(** The relocation from 4100 to 8204 copies the 64 usable bytes. *)
Lemma realloc_copies_old_contents_witness :
  let w := bump_world 8192 0 64 in
  let w1 :=
    snd (mi_heap_malloc_aligned_at (cfg := mi_release_config)
           (B := bump_allocator) w 1 100 16 4) in
  exists w3 : world bump,
    mi_heap_realloc_zero_aligned_at (cfg := mi_release_config)
      (B := bump_allocator) w 1 4100 100 16 4 true
    = (8204, mi_free (B := bump_allocator) w3 4100)
    /\ forall i,
        0 <= i < Z.min (mi_usable_size (B := bump_allocator) w 4100) 100 ->
        mem w3 (8204 + i) = mem w1 (4100 + i).
Proof.
  intros w w1.
  apply (@realloc_copies_old_contents mi_release_config bump bump_allocator
           w 1 4100 100 16 4 true 8204 w1).
  - by_computation.
  - by_computation.
  - vm_compute. reflexivity.
  - apply run_result. vm_compute. reflexivity.
  - by_computation.
  - left. by_computation.
Defined.

(** The same relocation, zero-initialising: bytes 64 to 99 of the new block
    read as zero. *)
Lemma rezalloc_zeroes_new_tail_witness :
  let w := bump_world 8192 0 64 in
  exists w3 : world bump,
    mi_heap_realloc_zero_aligned_at (cfg := mi_release_config)
      (B := bump_allocator) w 1 4100 100 16 4 true
    = (8204, mi_free (B := bump_allocator) w3 4100)
    /\ forall i,
        mi_usable_size (B := bump_allocator) w 4100 <= i < 100 ->
        mem w3 (8204 + i) = 0.
Proof.
  intros w.
  apply (@rezalloc_zeroes_new_tail mi_release_config bump bump_allocator
           w 1 4100 100 16 4 8204
           (snd (mi_heap_malloc_aligned_at (cfg := mi_release_config)
                   (B := bump_allocator) w 1 100 16 4))).
  - by_computation.
  - by_computation.
  - vm_compute. reflexivity.
  - apply run_result. vm_compute. reflexivity.
  - by_computation.
  - by_computation.
  - vm_compute. reflexivity.
Defined.



(** An alignment of 3 in a debug build, where the assertion passes. *)
Lemma offset_entry_points_reject_witness :
  let w := bump_world 8192 0 64 in
  let r :=
    mi_heap_zalloc_aligned_at (cfg := mi_debug_config) (B := bump_allocator)
      w 1 100 3 0 in
  mi_assert_aborts (cfg := mi_debug_config) (0 <? 3) = false
  /\ fst r = NULL /\ untouched w (snd r).
Proof.
  intros w r.
  split; [reflexivity|].
  pose proof (@offset_entry_points_reject mi_debug_config bump bump_allocator
                w 1 5 100 3 0
                ltac:(reflexivity)
                ltac:(right; left; vm_compute; reflexivity)) as H.
  cbv zeta in H. destruct H as [_ [_ [H _]]]. exact H.
Defined.

Lemma malloc_aligned_with_padding_rejects_witness :
  let w := bump_world 8192 0 64 in
  let r :=
    mi_heap_malloc_aligned (cfg := mi_debug_config) (B := bump_allocator)
      w 1 100 3 in
  mi_assert_aborts (cfg := mi_debug_config) (0 <? 3) = false
  /\ fst r = NULL /\ untouched w (snd r).
Proof.
  intros w r.
  split; [reflexivity|].
  apply (@malloc_aligned_with_padding_rejects mi_debug_config bump
           bump_allocator w 1 100 3).
  - reflexivity.
  - vm_compute. reflexivity.
  - by_computation.
  - by_computation.
  - reflexivity.
  - right. left. vm_compute. reflexivity.
Defined.

Lemma malloc_aligned_without_padding_rejects_witness :
  let w := bump_world 8192 0 64 in
  let r :=
    mi_heap_malloc_aligned (cfg := mi_release_config) (B := bump_allocator)
      w 1 100 3 in
  mi_assert_aborts (cfg := mi_release_config) (0 <? 3) = false
  /\ fst r = NULL /\ untouched w (snd r).
Proof.
  intros w r.
  split; [reflexivity|].
  apply (@malloc_aligned_without_padding_rejects mi_release_config bump
           bump_allocator w 1 100 3).
  - reflexivity.
  - by_computation.
  - reflexivity.
  - left. vm_compute. reflexivity.
Defined.
